(** * A shallow embedding of [todo.c], the command-line to-do list manager

    The program keeps its tasks in a singly linked list of [Task] nodes
    and persists them in the text file [tasks.txt], one task per line.
    The linked list is embedded as a Rocq [list] of records: the [next]
    pointer of a node is the tail of the list, [NULL] is [[]].  Every loop
    of the source that walks the list is a structural recursion on it.

    C [int]s are integers in [Z]; where the source computes on them the
    two's-complement wrap-around is written out with [wrap_int] (the
    counters never overflow, lemma [wrap_int_succ]; [index - 1] in
    [deleteTask] does so at [INT_MIN] only).  C strings are lists of
    characters, read up to their first NUL.  Where [sscanf] assigns an
    item that does not fit (a [%d] item its [int], a [%[] item its
    buffer) and the program goes on to use it, the outcome is an
    explicit [Undefined].  [malloc] is taken to succeed: when it fails [createTask]
    ends the process. *)

From Stdlib Require Import ZArith Ascii String DecimalString Lia.
From Stdlib Require DecimalFacts DecimalPos.
From stdpp Require Import base list sets strings.

(** ** Machine integers *)

Definition INT_MIN : Z := (- 2 ^ 31)%Z.
Definition INT_MAX : Z := (2 ^ 31 - 1)%Z.

(** [z] is a value of the C type [int]. *)
Definition is_int (z : Z) : Prop := (INT_MIN ≤ z ≤ INT_MAX)%Z.

(** The 32-bit two's-complement value of [z]. *)
Definition wrap_int (z : Z) : Z := ((z + 2 ^ 31) `mod` 2 ^ 32 - 2 ^ 31)%Z.

(** ** Characters and C strings *)

Definition NUL : ascii := "000"%char.
Definition newline : ascii := "010"%char.
Definition comma : ascii := ","%char.

(** A string literal as the characters of a C string. *)
Definition str (s : string) : list ascii := list_ascii_of_string s.

(** The characters of [s] in front of the first occurrence of [stop]. *)
Fixpoint before (stop : ascii) (s : list ascii) : list ascii :=
  match s with
  | [] => []
  | c :: s' => if decide (c = stop) then [] else c :: before stop s'
  end.

(** The C string held in a buffer: the characters before the first NUL. *)
Definition c_str (buf : list ascii) : list ascii := before NUL buf.

(** [strncpy(dst, src, n); dst[n] = '\0';] leaves in [dst] the first [n]
    characters of the C string [src]. *)
Definition strncpy (src : list ascii) (n : nat) : list ascii :=
  take n (c_str src).

(** [s[strcspn(s, "\n")] = 0]: the C string [s] cut at its first newline. *)
Definition cut_newline (s : list ascii) : list ascii := before newline (c_str s).

(** ** The data structure *)

Definition MAX_TASK_LEN : nat := 256.

(** [struct Task]; the [next] field is the tail of the enclosing list. *)
Record Task : Type := mkTask {
  description : list ascii;
  completed : Z
}.

(** What the operation prints about its result. *)
Inductive report : Type :=
| TaskNotFound      (* "Error: Task %d not found." *)
| ListEmpty         (* "Error: List is empty, nothing to delete." *)
| MarkedComplete    (* "Task %d marked as complete." *)
| TaskDeleted.      (* "Task %d deleted." *)

(** ** createTask, addTask *)

Definition createTask (d : list ascii) : Task :=
  {| description := strncpy d (MAX_TASK_LEN - 1); completed := 0 |}.

(** The loop [while (current->next != NULL) current = current->next;]
    followed by [current->next = newTask], started at node [current]
    whose successors are [next]. *)
Fixpoint link_at_end (current : Task) (next : list Task) (newTask : Task)
  : list Task :=
  match next with
  | [] => [current; newTask]
  | n :: next' => current :: link_at_end n next' newTask
  end.

Definition addTask (head : list Task) (d : list ascii) : list Task :=
  let newTask := createTask d in
  match head with
  | [] => [newTask]
  | t :: next => link_at_end t next newTask
  end.

(** ** markComplete *)

Definition set_completed (t : Task) : Task :=
  {| description := description t; completed := 1 |}.

(** The loop [while (current != NULL && count < index)] and the test
    [current == NULL] after it.  [None]: the loop ran off the list. *)
Fixpoint mark_loop (current : list Task) (count index : Z)
  : option (list Task) :=
  match current with
  | [] => None
  | t :: next =>
      if (count <? index)%Z
      then cons t <$> mark_loop next (wrap_int (count + 1)) index
      else Some (set_completed t :: next)
  end.

Definition markComplete (head : list Task) (index : Z) : report * list Task :=
  match mark_loop head 1 index with
  | None => (TaskNotFound, head)
  | Some head' => (MarkedComplete, head')
  end.

(** ** deleteTask *)

(** The loop [while (current != NULL && count < index - 1)], the test
    [current == NULL || current->next == NULL] and the unlinking of
    [current->next].  [bound] is the value of [index - 1]. *)
Fixpoint delete_loop (current : list Task) (count bound : Z)
  : option (list Task) :=
  match current with
  | [] => None
  | t :: next =>
      if (count <? bound)%Z
      then cons t <$> delete_loop next (wrap_int (count + 1)) bound
      else match next with
           | [] => None
           | _ :: next' => Some (t :: next')
           end
  end.

Definition deleteTask (head : list Task) (index : Z) : report * list Task :=
  match head with
  | [] => (ListEmpty, head)
  | _ :: next =>
      if (index =? 1)%Z then (TaskDeleted, next)
      else match delete_loop head 1 (wrap_int (index - 1)) with
           | None => (TaskNotFound, head)
           | Some head' => (TaskDeleted, head')
           end
  end.

(** ** The task file: saveTasks *)

(** An [int] printed by [%d]. *)
Definition print_int (z : Z) : list ascii :=
  str (NilZero.string_of_int (Z.to_int z)).

(** [fprintf(file, "%d,%s\n", current->completed, current->description)] *)
Definition task_line (t : Task) : list ascii :=
  print_int (completed t) ++ comma :: c_str (description t) ++ [newline].

Fixpoint write_tasks (current : list Task) : list ascii :=
  match current with
  | [] => []
  | t :: next => task_line t ++ write_tasks next
  end.

(** The file [tasks.txt] is [None] while it does not exist and [Some] of
    its content otherwise.  [can_open] is the outcome of [fopen]: when it
    fails nothing is written. *)
Definition saveTasks (can_open : bool) (head : list Task)
    (file : option (list ascii)) : option (list ascii) :=
  if can_open then Some (write_tasks head) else file.

(** ** The task file: fgets and sscanf *)

(** At most [room] characters of the stream, up to and with the first
    newline; the second component is the unread rest of the stream. *)
Fixpoint read_line (room : nat) (stream : list ascii)
  : list ascii * list ascii :=
  match room, stream with
  | S room', c :: stream' =>
      if decide (c = newline) then ([c], stream')
      else let '(l, r) := read_line room' stream' in (c :: l, r)
  | _, _ => ([], stream)
  end.

(** [fgets(buf, size, stream)]: [None] is the NULL returned at end of file. *)
Definition fgets (size : nat) (stream : list ascii)
  : option (list ascii * list ascii) :=
  match stream with
  | [] => None
  | _ :: _ => Some (read_line (size - 1) stream)
  end.

Definition isspace (c : ascii) : bool :=
  match c with
  | " "%char | "009"%char | "010"%char | "011"%char | "012"%char
  | "013"%char => true
  | _ => false
  end.

Definition isdigit (c : ascii) : bool :=
  (48 <=? nat_of_ascii c)%nat && (nat_of_ascii c <=? 57)%nat.

Definition digit_value (c : ascii) : Z := Z.of_nat (nat_of_ascii c - 48).

Fixpoint skip_space (s : list ascii) : list ascii :=
  match s with
  | c :: s' => if isspace c then skip_space s' else s
  | [] => []
  end.

(** The digits at the front of [s], accumulated onto [acc] in base ten,
    and the input that follows them. *)
Fixpoint scan_digits (acc : Z) (s : list ascii) : Z * list ascii :=
  match s with
  | c :: s' =>
      if isdigit c then scan_digits (10 * acc + digit_value c) s' else (acc, s)
  | [] => (acc, [])
  end.

(** The optional sign of a [%d] item: is it negative, and what follows. *)
Definition scan_sign (s : list ascii) : bool * list ascii :=
  match s with
  | "-"%char :: s' => (true, s')
  | "+"%char :: s' => (false, s')
  | _ => (false, s)
  end.

(** What the C standard leaves undefined is [Undefined]. *)
Inductive outcome (A : Type) : Type :=
| Done (a : A)
| Undefined.
Arguments Done {A} a.
Arguments Undefined {A}.

(** The result of [sscanf(s, "%d,%[^\n]", &completed, description)]:
    either both items were assigned (the call returns 2) or not. *)
Inductive scanned : Type :=
| Fields (completed : Z) (description : list ascii)
| NoMatch.

Definition in_int_range (z : Z) : bool :=
  (INT_MIN <=? z)%Z && (z <=? INT_MAX)%Z.

(** [sscanf] with the format ["%d,%[^\n]"] on the C string [s], storing
    the second item in a buffer of [buf] bytes.  [%d] skips white space,
    takes an optional sign and at least one digit; the comma must follow
    at once; [%[^\n]] takes at least one character up to a newline or
    the end of the string, and a NUL after them.

    A number that does not fit an [int] leaves no defined value in
    [completed]; the matching goes on all the same, and [loadTasks] reads
    [completed] only when the call returns 2.  The outcome is [Undefined]
    when both items are assigned and one of them does not fit: the number
    its [int], or the text with its NUL the buffer. *)
Definition sscanf_task (buf : nat) (s : list ascii) : outcome scanned :=
  let '(negative, s1) := scan_sign (skip_space s) in
  match s1 with
  | c :: _ =>
      if isdigit c then
        let '(n, s2) := scan_digits 0 s1 in
        let v := if negative then (- n)%Z else n in
        match s2 with
        | c' :: s3 =>
            if decide (c' = comma) then
              match before newline s3 with
              | [] => Done NoMatch
              | d => if in_int_range v && (length d <? buf)%nat
                     then Done (Fields v d) else Undefined
              end
            else Done NoMatch
        | [] => Done NoMatch
        end
      else Done NoMatch
  | [] => Done NoMatch
  end.

(** ** The task file: loadTasks *)

(** The loop [while (current->next != NULL) current = current->next;]
    followed by [current->completed = 1]. *)
Fixpoint mark_last (current : Task) (next : list Task) : list Task :=
  match next with
  | [] => [set_completed current]
  | n :: next' => current :: mark_last n next'
  end.

(** The body of the reading loop on the line left in [lineBuffer]. *)
Definition load_line (head : list Task) (line : list ascii)
  : outcome (list Task) :=
  match sscanf_task MAX_TASK_LEN (c_str line) with
  | Undefined => Undefined
  | Done NoMatch => Done head
  | Done (Fields c d) =>
      let head' := addTask head d in
      Done (if decide (c = 0%Z) then head'
            else match head' with
                 | [] => head'
                 | t :: next => mark_last t next
                 end)
  end.

(** [while (fgets(lineBuffer, sizeof(lineBuffer), file) != NULL)].  Every
    round reads at least one character, so [fuel] at least the length of
    the stream is never used up (lemma [load_loop_fuel]). *)
Fixpoint load_loop (fuel : nat) (head : list Task) (stream : list ascii)
  : outcome (list Task) :=
  match fgets (MAX_TASK_LEN + 10) stream with
  | None => Done head
  | Some (line, stream') =>
      match fuel with
      | O => Done head
      | S fuel' =>
          match load_line head line with
          | Undefined => Undefined
          | Done head' => load_loop fuel' head' stream'
          end
      end
  end.

Definition loadTasks (head : list Task) (file : option (list ascii))
  : outcome (list Task) :=
  match file with
  | None => Done head
  | Some content => load_loop (length content) head content
  end.

(** ** The menu's "add" action and runs of the store operations *)

(** [case 1] of [main]: a line of standard input, cut at its newline, is
    passed to [addTask]. *)
Definition add_from_input (head : list Task) (stdin : list ascii)
  : list Task :=
  match fgets MAX_TASK_LEN stdin with
  | None => head
  | Some (line, _) => addTask head (cut_newline line)
  end.

Inductive op : Type :=
| Add (d : list ascii)
| Mark (index : Z)
| Delete (index : Z).

Definition apply_op (head : list Task) (o : op) : list Task :=
  match o with
  | Add d => addTask head d
  | Mark i => (markComplete head i).2
  | Delete i => (deleteTask head i).2
  end.

Definition run (ops : list op) : list Task := foldl apply_op [] ops.

(** ** Reading the file line by line *)

(** The task that [loadTasks] appends for the items [c] and [d]. *)
Definition loaded_task (c : Z) (d : list ascii) : Task :=
  if decide (c = 0%Z) then createTask d else set_completed (createTask d).

(** The task that a line of the file stands for, if [sscanf] assigns both
    items on it; [None] on every other line, also where the behaviour of
    [sscanf] is not defined (see [line_defined]). *)
Definition line_task (line : list ascii) : option Task :=
  match sscanf_task MAX_TASK_LEN (c_str line) with
  | Done (Fields c d) => Some (loaded_task c d)
  | _ => None
  end.

(** The lines that the calls of [fgets] in the reading loop return, in
    the order of the file. *)
Fixpoint fgets_lines (fuel : nat) (stream : list ascii) : list (list ascii) :=
  match fuel with
  | O => []
  | S fuel' =>
      match fgets (MAX_TASK_LEN + 10) stream with
      | None => []
      | Some (line, stream') => line :: fgets_lines fuel' stream'
      end
  end.

Definition file_lines (content : list ascii) : list (list ascii) :=
  fgets_lines (length content) content.

(** The behaviour of [sscanf] on the line is defined. *)
Definition line_defined (line : list ascii) : Prop :=
  sscanf_task MAX_TASK_LEN (c_str line) ≠ Undefined.

(** A line, without its newline, that one call of [fgets] reads whole. *)
Definition line_fits (l : list ascii) : Prop :=
  (newline ∉ l) ∧ (length l + 1 < MAX_TASK_LEN + 10)%nat.

Definition with_newline (l : list ascii) : list ascii := l ++ [newline].

(** A file of the lines [ls], each ended by a newline. *)
Definition unlines (ls : list (list ascii)) : list ascii :=
  concat (with_newline <$> ls).

Definition outcome_map {A B} (f : A → B) (o : outcome A) : outcome B :=
  match o with
  | Done a => Done (f a)
  | Undefined => Undefined
  end.

(** ** Invariants of the stored tasks *)

(** The description fits the 256-byte field with its terminator, and has
    no newline. *)
Definition description_ok (t : Task) : Prop :=
  (length (description t) ≤ MAX_TASK_LEN - 1)%nat ∧
  newline ∉ description t.

(** What every task built by the program satisfies: the flag is 0 or 1
    and the description is a C string that fits its field. *)
Definition stored_ok (t : Task) : Prop :=
  (completed t = 0%Z ∨ completed t = 1%Z) ∧
  (NUL ∉ description t) ∧
  (length (description t) ≤ MAX_TASK_LEN - 1)%nat.

(** The description survives a save and a load: it is one non-empty line. *)
Definition one_line (t : Task) : Prop :=
  description t ≠ [] ∧ newline ∉ description t.

(** The line that [saveTasks] writes for a task, without its newline. *)
Definition saved_line (t : Task) : list ascii :=
  print_int (completed t) ++ comma :: c_str (description t).

(** ** The format of a line, in words *)

(** The number written by a run of decimal digits. *)
Definition decimal_value (digits : list ascii) : Z :=
  foldl (λ acc c, 10 * acc + digit_value c)%Z 0%Z digits.

Definition signed_value (sign digits : list ascii) : Z :=
  if decide (sign = ["-"%char]) then (- decimal_value digits)%Z
  else decimal_value digits.

(** [s] begins with a decimal integer, possibly signed and of several
    digits, with value [z], followed at once by a comma and by at least
    one character other than a newline; [d] is the text after the comma
    up to the end of the line. *)
Definition begins_with_task (s : list ascii) (z : Z) (d : list ascii) : Prop :=
  ∃ sign digits text,
    s = sign ++ digits ++ comma :: text ∧
    (sign = [] ∨ sign = ["+"%char] ∨ sign = ["-"%char]) ∧
    digits ≠ [] ∧ Forall (λ c, isdigit c = true) digits ∧
    z = signed_value sign digits ∧
    d = before newline text ∧ d ≠ [].

(** The same after white space at the front of the line. *)
Definition wellformed_line (s : list ascii) (z : Z) (d : list ascii) : Prop :=
  ∃ space rest,
    s = space ++ rest ∧ Forall (λ c, isspace c = true) space ∧
    begins_with_task rest z d.

(** [sscanf] assigns both items on [s]: the line is loaded. *)
Definition accepted (s : list ascii) : Prop :=
  ∃ c d, sscanf_task MAX_TASK_LEN s = Done (Fields c d).

(** The task at the 1-based position [p], as [displayTasks] numbers them. *)
Definition task_at (head : list Task) (p : Z) : option Task :=
  if (p <? 1)%Z then None else head !! Z.to_nat (p - 1).

(** ** displayTasks *)

(** One line ["%d. [%c] %s\n"] of the listing: the arguments of its
    [printf], the description as [%s] prints it. *)
Record row : Type := mkRow {
  row_index : Z;
  row_mark : ascii;
  row_text : list ascii
}.

Definition mark_of (t : Task) : ascii :=
  if decide (completed t = 0%Z) then " "%char else "X"%char.

(** The loop of [displayTasks], started at node [current] with the
    counter at [index]; [index++] follows every line. *)
Fixpoint display_rows (current : list Task) (index : Z) : list row :=
  match current with
  | [] => []
  | t :: next =>
      mkRow index (mark_of t) (c_str (description t))
      :: display_rows next (wrap_int (index + 1))
  end.

(** What [displayTasks] prints: the notice that the list is empty, or
    the heading and the lines. *)
Inductive listing : Type :=
| ListIsEmpty
| Listed (rows : list row).

Definition displayTasks (head : list Task) : listing :=
  match head with
  | [] => ListIsEmpty
  | _ :: _ => Listed (display_rows head 1)
  end.

(** ** clearInputBuffer *)

(** [while ((c = getchar()) != '\n' && c != EOF);] on the rest of the
    standard input: what is left to read afterwards. *)
Fixpoint clearInputBuffer (stdin : list ascii) : list ascii :=
  match stdin with
  | [] => []
  | c :: stdin' => if decide (c = newline) then stdin' else clearInputBuffer stdin'
  end.

(** ** main *)

(** [sscanf(s, "%d", &n)]: [Some] of the number when the call returns 1. *)
Definition sscanf_int (s : list ascii) : outcome (option Z) :=
  let '(negative, s1) := scan_sign (skip_space s) in
  match s1 with
  | c :: _ =>
      if isdigit c then
        let '(n, _) := scan_digits 0 s1 in
        let v := if negative then (- n)%Z else n in
        if in_int_range v then Done (Some v) else Undefined
      else Done None
  | [] => Done None
  end.

(** What the program prints, one constructor for each [printf] of [main]
    and for the output of the functions it calls. *)
Inductive message : Type :=
| Welcome             (* "Welcome to your C To-Do List Manager!" *)
| NoTaskFile          (* "No existing task file found. Starting fresh." *)
| TasksLoaded         (* "Tasks loaded from tasks.txt." *)
| Menu                (* printMenu() *)
| InvalidInput        (* "Invalid input. Please enter a number." *)
| AskDescription      (* "Enter task description: " *)
| TaskAdded           (* "Task added." *)
| Listing (l : listing)
| AskMark             (* "Enter task number to mark complete: " *)
| AskDelete           (* "Enter task number to delete: " *)
| InvalidNumber       (* "Invalid number." *)
| Reported (index : Z) (r : report)
| Saving              (* "Saving tasks and quitting..." *)
| CannotSave          (* "Error: Could not open file tasks.txt for writing." *)
| InvalidChoice.      (* "Invalid choice. Please select from 1-5." *)

(** One round of the loop of [main] either goes on with a list and the
    rest of the standard input, or returns from [main] leaving the file. *)
Inductive round : Type :=
| Continue (head : list Task) (stdin : list ascii) (out : list message)
| Return (file : option (list ascii)) (out : list message).

(** The number read for [case 3] and [case 4] and the call made with it. *)
Definition with_index (act : list Task → Z → report * list Task)
    (ask : message) (head : list Task) (stdin : list ascii) : outcome round :=
  match fgets MAX_TASK_LEN stdin with
  | None => Done (Continue head stdin [Menu; ask])
  | Some (inputBuffer, stdin') =>
      match sscanf_int (c_str inputBuffer) with
      | Undefined => Undefined
      | Done None => Done (Continue head stdin' [Menu; ask; InvalidNumber])
      | Done (Some taskIndex) =>
          let '(r, head') := act head taskIndex in
          Done (Continue head' stdin' [Menu; ask; Reported taskIndex r])
      end
  end.

(** The body of [while (1)] in [main].  [can_open] is the outcome of the
    [fopen] of [saveTasks], [file] the task file as it is. *)
Definition menu_round (can_open : bool) (file : option (list ascii))
    (head : list Task) (stdin : list ascii) : outcome round :=
  match fgets MAX_TASK_LEN stdin with
  | None => Done (Continue head stdin [Menu])
  | Some (inputBuffer, stdin1) =>
      match sscanf_int (c_str inputBuffer) with
      | Undefined => Undefined
      | Done None => Done (Continue head stdin1 [Menu; InvalidInput])
      | Done (Some choice) =>
          if (choice =? 1)%Z then
            match fgets MAX_TASK_LEN stdin1 with
            | None => Done (Continue head stdin1 [Menu; AskDescription])
            | Some (taskDescription, stdin2) =>
                Done (Continue (addTask head (cut_newline taskDescription))
                        stdin2 [Menu; AskDescription; TaskAdded])
            end
          else if (choice =? 2)%Z then
            Done (Continue head stdin1 [Menu; Listing (displayTasks head)])
          else if (choice =? 3)%Z then
            with_index markComplete AskMark head stdin1
          else if (choice =? 4)%Z then
            with_index deleteTask AskDelete head stdin1
          else if (choice =? 5)%Z then
            Done (Return (saveTasks can_open head file)
                    (Menu :: Saving :: if can_open then [] else [CannotSave]))
          else Done (Continue head stdin1 [Menu; InvalidChoice])
      end
  end.

(** How a run of [main] stands after some rounds: it has returned, or it
    is still in the loop. *)
Inductive run_state : Type :=
| Exited (file : option (list ascii)) (out : list message)
| InLoop (head : list Task) (stdin : list ascii) (out : list message).

(** At most [rounds] rounds of the loop of [main]. *)
Fixpoint main_loop (rounds : nat) (can_open : bool)
    (file : option (list ascii)) (head : list Task) (stdin : list ascii)
    (out : list message) : outcome run_state :=
  match rounds with
  | O => Done (InLoop head stdin out)
  | S rounds' =>
      match menu_round can_open file head stdin with
      | Undefined => Undefined
      | Done (Return file' out') => Done (Exited file' (out ++ out'))
      | Done (Continue head' stdin' out') =>
          main_loop rounds' can_open file head' stdin' (out ++ out')
      end
  end.

(** [main] up to [rounds] rounds of its loop, on the task file [file]
    and the standard input [stdin]. *)
Definition main (rounds : nat) (can_open : bool)
    (file : option (list ascii)) (stdin : list ascii) : outcome run_state :=
  match loadTasks [] file with
  | Undefined => Undefined
  | Done head =>
      main_loop rounds can_open file head stdin
        [Welcome; match file with None => NoTaskFile | Some _ => TasksLoaded end]
  end.

(** ** What the user types *)

(** The lines typed at the menu for an operation of the list. *)
Definition command (o : op) : list ascii :=
  match o with
  | Add d => "1"%char :: newline :: d ++ [newline]
  | Mark i => "3"%char :: newline :: print_int i ++ [newline]
  | Delete i => "4"%char :: newline :: print_int i ++ [newline]
  end.

Definition commands (ops : list op) : list ascii := concat (command <$> ops).

(** The operation can be typed as it is: the description is one line
    that fits the input buffer with its newline, the index is an [int]. *)
Definition typed_ok (o : op) : Prop :=
  match o with
  | Add d => (NUL ∉ d) ∧ (newline ∉ d) ∧ (length d + 1 < MAX_TASK_LEN)%nat
  | Mark i | Delete i => is_int i
  end.

(** The description of an added task is free of newlines. *)
Definition one_line_op (o : op) : Prop :=
  match o with
  | Add d => newline ∉ d
  | Mark _ | Delete _ => True
  end.

(** The output of a run does not matter for where it ends. *)
Definition run_end (r : outcome run_state)
  : outcome (option (list ascii) + list Task * list ascii) :=
  outcome_map (λ st, match st with
                     | Exited file _ => inl file
                     | InLoop head stdin _ => inr (head, stdin)
                     end) r.

(** * Properties *)

(** ** Machine integers *)

Ltac int_lia :=
  unfold is_int, INT_MIN, INT_MAX in *;
  change (2 ^ 31)%Z with 2147483648%Z in *;
  change (2 ^ 32)%Z with 4294967296%Z in *;
  lia.

Lemma wrap_int_id z : is_int z → wrap_int z = z.
Proof.
  unfold wrap_int. intros Hz. rewrite Z.mod_small; int_lia.
Qed.

(** A counter below an [int] bound can be incremented without overflow. *)
Lemma wrap_int_succ count bound :
  is_int count → is_int bound → (count < bound)%Z →
  wrap_int (count + 1) = (count + 1)%Z ∧ is_int (count + 1).
Proof.
  intros Hc Hb Hlt.
  assert (is_int (count + 1)) as H by int_lia.
  split; [by apply wrap_int_id | done].
Qed.

(** ** addTask *)

Lemma link_at_end_app t next n : link_at_end t next n = t :: next ++ [n].
Proof.
  revert t. induction next as [|u next IH]; intros t; simpl; [done|].
  by rewrite IH.
Qed.

Lemma addTask_app head d : addTask head d = head ++ [createTask d].
Proof. destruct head as [|t next]; simpl; [done|]. apply link_at_end_app. Qed.

Lemma task_at_lookup head p :
  (1 ≤ p)%Z → task_at head p = head !! Z.to_nat (p - 1).
Proof. intros Hp. unfold task_at. by rewrite (proj2 (Z.ltb_ge p 1)). Qed.

(** ** markComplete *)

Lemma mark_loop_spec current count index :
  is_int count → is_int index →
  mark_loop current count index
  = (λ _, alter set_completed (Z.to_nat (index - count)) current)
      <$> current !! Z.to_nat (index - count).
Proof.
  revert count. induction current as [|t next IH]; intros count Hc Hi; simpl.
  { done. }
  destruct (Z.ltb_spec count index) as [Hlt|Hge].
  - destruct (wrap_int_succ count index Hc Hi Hlt) as [-> Hc'].
    rewrite IH by done.
    replace (Z.to_nat (index - count)) with (S (Z.to_nat (index - (count + 1))))
      by lia.
    simpl. by destruct (next !! _).
  - replace (Z.to_nat (index - count)) with 0%nat by lia. done.
Qed.

Lemma is_int_1 : is_int 1.
Proof. int_lia. Qed.

Lemma markComplete_spec head index :
  is_int index →
  markComplete head index
  = match head !! Z.to_nat (index - 1) with
    | Some _ => (MarkedComplete, alter set_completed (Z.to_nat (index - 1)) head)
    | None => (TaskNotFound, head)
    end.
Proof.
  intros Hi. unfold markComplete.
  rewrite mark_loop_spec by auto using is_int_1.
  by destruct (head !! _).
Qed.

(** Beyond the end of the list the task is not found. *)
Lemma markComplete_beyond head index :
  is_int index → (Z.of_nat (length head) < index)%Z →
  markComplete head index = (TaskNotFound, head).
Proof.
  intros Hi Hlen. rewrite markComplete_spec by done.
  rewrite (lookup_ge_None_2 head) by lia. done.
Qed.

Lemma markComplete_empty index : markComplete [] index = (TaskNotFound, []).
Proof. done. Qed.

(** Below 1 the loop does not run and the first task is marked. *)
Lemma markComplete_below t next index :
  (index ≤ 1)%Z →
  markComplete (t :: next) index = (MarkedComplete, set_completed t :: next).
Proof.
  intros Hi. unfold markComplete. simpl.
  by rewrite (proj2 (Z.ltb_ge 1 index)).
Qed.

(** ** deleteTask *)

Lemma delete_loop_spec current count bound :
  is_int count → is_int bound →
  delete_loop current count bound
  = (λ _, delete (S (Z.to_nat (bound - count))) current)
      <$> current !! S (Z.to_nat (bound - count)).
Proof.
  revert count. induction current as [|t next IH]; intros count Hc Hb; simpl.
  { done. }
  destruct (Z.ltb_spec count bound) as [Hlt|Hge].
  - destruct (wrap_int_succ count bound Hc Hb Hlt) as [-> Hc'].
    rewrite IH by done.
    replace (Z.to_nat (bound - count)) with (S (Z.to_nat (bound - (count + 1))))
      by lia.
    simpl. by destruct (next !! _).
  - replace (Z.to_nat (bound - count)) with 0%nat by lia.
    by destruct next.
Qed.

Lemma deleteTask_spec head index :
  is_int index → (1 ≤ index)%Z →
  deleteTask head index
  = match head !! Z.to_nat (index - 1) with
    | Some _ => (TaskDeleted, delete (Z.to_nat (index - 1)) head)
    | None => (match head with [] => ListEmpty | _ => TaskNotFound end, head)
    end.
Proof.
  intros Hi H1. destruct head as [|t next]; [done|].
  unfold deleteTask. destruct (Z.eqb_spec index 1) as [->|Hne]; [done|].
  assert (is_int (index - 1)) as Hi' by int_lia.
  rewrite wrap_int_id, delete_loop_spec by auto using is_int_1.
  replace (Z.to_nat (index - 1)) with (S (Z.to_nat (index - 1 - 1))) by lia.
  by destruct (_ !! _).
Qed.

Lemma deleteTask_beyond head index :
  is_int index → (Z.of_nat (length head) < index)%Z →
  (deleteTask head index).2 = head ∧
  (deleteTask head index).1 = match head with [] => ListEmpty | _ => TaskNotFound end.
Proof.
  intros Hi Hlen. rewrite deleteTask_spec by (done || lia).
  rewrite (lookup_ge_None_2 head) by lia. done.
Qed.

Lemma deleteTask_empty index : deleteTask [] index = (ListEmpty, []).
Proof. done. Qed.

(** Below 1 (and above [INT_MIN], where [index - 1] does not overflow) the
    loop does not run and the second task is unlinked. *)
Lemma deleteTask_below t u next index :
  (INT_MIN < index < 1)%Z →
  deleteTask (t :: u :: next) index = (TaskDeleted, t :: next).
Proof.
  intros Hi. unfold deleteTask.
  destruct (Z.eqb_spec index 1) as [->|_]; [int_lia|].
  rewrite wrap_int_id by int_lia.
  simpl. destruct (Z.ltb_spec 1 (index - 1)); [int_lia|done].
Qed.

(** ** The store operations: the claims *)

(** C1 (defect of the code): [markComplete] is to report a task that is
    not found, and change nothing, for every index below 1.  With index 0
    on a list of one task the loop [while (current != NULL && count <
    index)] does not run, [current] is still the head, and the first
    task is marked and reported as marked. *)
Theorem markComplete_index_zero :
  markComplete [mkTask (str "Buy milk") 0] 0
  = (MarkedComplete, [mkTask (str "Buy milk") 1]).
Proof. reflexivity. Qed.

(** C2 (defect of the code): [deleteTask] is to report a task that is not
    found, and remove nothing, for every index below 1.  With index 0 on
    a list of two tasks the loop [while (current != NULL && count <
    index - 1)] does not run, [current] is the head, and the second task
    is unlinked and reported as deleted. *)
Theorem deleteTask_index_zero :
  deleteTask [mkTask (str "Buy milk") 0; mkTask (str "Pay rent") 0] 0
  = (TaskDeleted, [mkTask (str "Buy milk") 0]).
Proof. reflexivity. Qed.

(** C4: [addTask] returns a list one longer, whose last task is the new
    one with [completed = 0] and the description cut to 255 characters;
    every position of the old list holds the task it held before. *)
Theorem addTask_appends head d :
  length (addTask head d) = S (length head) ∧
  last (addTask head d) = Some (createTask d) ∧
  completed (createTask d) = 0%Z ∧
  description (createTask d) = take 255 (c_str d) ∧
  ∀ p, task_at (addTask head d) p
       = if (p =? Z.of_nat (length head) + 1)%Z then Some (createTask d)
         else task_at head p.
Proof.
  rewrite addTask_app. split_and!.
  - rewrite length_app. simpl. lia.
  - apply last_snoc.
  - done.
  - done.
  - intros p. unfold task_at. destruct (Z.ltb_spec p 1) as [Hp|Hp].
    { destruct (Z.eqb_spec p (Z.of_nat (length head) + 1)); [lia|done]. }
    destruct (Z.eqb_spec p (Z.of_nat (length head) + 1)) as [->|Hne].
    + replace (Z.to_nat _) with (length head) by lia.
      by rewrite list_lookup_middle.
    + destruct (decide (Z.to_nat (p - 1) < length head)%nat) as [Hlt|Hge].
      * by rewrite lookup_app_l.
      * rewrite !lookup_ge_None_2; [done|lia|].
        rewrite length_app. simpl. lia.
Qed.

(** C5: for a valid index, [deleteTask] reports the deletion, the list is
    one shorter, the positions below the index keep their tasks and every
    later task moves one position down. *)
Theorem deleteTask_valid head index :
  is_int index → (1 ≤ index ≤ Z.of_nat (length head))%Z →
  (deleteTask head index).1 = TaskDeleted ∧
  S (length (deleteTask head index).2) = length head ∧
  ∀ p, task_at (deleteTask head index).2 p
       = if (p <? index)%Z then task_at head p else task_at head (p + 1).
Proof.
  intros Hi [H1 Hlen]. rewrite deleteTask_spec by done.
  destruct (lookup_lt_is_Some_2 head (Z.to_nat (index - 1))) as [t Ht]; [lia|].
  rewrite Ht. simpl. split_and!.
  - done.
  - rewrite length_delete by eauto. apply lookup_lt_Some in Ht. lia.
  - intros p. unfold task_at.
    destruct (Z.ltb_spec p 1) as [Hp|Hp].
    { destruct (Z.ltb_spec p index); [done|lia]. }
    destruct (Z.ltb_spec (p + 1) 1); [lia|].
    destruct (Z.ltb_spec p index) as [Hlt|Hge].
    + by rewrite list_lookup_delete_lt by lia.
    + rewrite list_lookup_delete_ge by lia. f_equal. lia.
Qed.

Lemma deleteTask_valid_witness :
  (deleteTask [mkTask (str "a") 0; mkTask (str "b") 1; mkTask (str "c") 0] 2).1
  = TaskDeleted ∧
  S (length (deleteTask
       [mkTask (str "a") 0; mkTask (str "b") 1; mkTask (str "c") 0] 2).2) = 3%nat ∧
  ∀ p, task_at (deleteTask
         [mkTask (str "a") 0; mkTask (str "b") 1; mkTask (str "c") 0] 2).2 p
       = if (p <? 2)%Z
         then task_at [mkTask (str "a") 0; mkTask (str "b") 1;
                       mkTask (str "c") 0] p
         else task_at [mkTask (str "a") 0; mkTask (str "b") 1;
                       mkTask (str "c") 0] (p + 1).
Proof.
  apply (deleteTask_valid
           [mkTask (str "a") 0; mkTask (str "b") 1; mkTask (str "c") 0] 2).
  - unfold is_int, INT_MIN, INT_MAX. lia.
  - simpl. lia.
Defined.

(** C7: from the empty list, adding "Buy milk" and "Pay rent", marking
    task 2 and deleting task 1 leaves the one task "Pay rent", completed. *)
Theorem example_run :
  run [Add (str "Buy milk"); Add (str "Pay rent"); Mark 2; Delete 1]
  = [mkTask (str "Pay rent") 1].
Proof. reflexivity. Qed.

(** ** Characters in front of a stop character *)

Lemma before_notin stop s : stop ∉ before stop s.
Proof.
  induction s as [|c s IH]; simpl; [apply not_elem_of_nil|].
  case_decide; [apply not_elem_of_nil|].
  apply not_elem_of_cons. split; [congruence|done].
Qed.

Lemma before_id stop s : stop ∉ s → before stop s = s.
Proof.
  induction s as [|c s IH]; simpl; intros Hs; [done|].
  apply not_elem_of_cons in Hs as [Hc Hs].
  case_decide; [congruence|]. by rewrite IH.
Qed.

Lemma before_app stop s r : stop ∉ s → before stop (s ++ stop :: r) = s.
Proof.
  induction s as [|c s IH]; simpl; intros Hs.
  { by case_decide. }
  apply not_elem_of_cons in Hs as [Hc Hs].
  case_decide; [congruence|]. by rewrite IH.
Qed.

Lemma before_app_notin stop s r :
  stop ∉ s → before stop (s ++ r) = s ++ before stop r.
Proof.
  induction s as [|c s IH]; simpl; intros Hs; [done|].
  apply not_elem_of_cons in Hs as [Hc Hs].
  case_decide; [congruence|]. by rewrite IH.
Qed.

Lemma before_prefix stop s : before stop s `prefix_of` s.
Proof.
  induction s as [|c s IH]; simpl; [done|].
  case_decide; [apply prefix_nil|by apply prefix_cons].
Qed.

Lemma before_length stop s : (length (before stop s) ≤ length s)%nat.
Proof. apply prefix_length, before_prefix. Qed.

Lemma before_elem_of stop s c : c ∈ before stop s → c ∈ s.
Proof.
  intros Hc. destruct (before_prefix stop s) as [r Hr].
  rewrite Hr. apply elem_of_app. by left.
Qed.

Lemma c_str_notin buf : NUL ∉ c_str buf.
Proof. apply before_notin. Qed.

Lemma c_str_id buf : NUL ∉ buf → c_str buf = buf.
Proof. apply before_id. Qed.

Lemma c_str_idemp buf : c_str (c_str buf) = c_str buf.
Proof. apply c_str_id, c_str_notin. Qed.

(** ** fgets *)

Lemma read_line_split room stream :
  (read_line room stream).1 ++ (read_line room stream).2 = stream.
Proof.
  revert stream. induction room as [|room IH]; intros [|c stream]; simpl;
    try done.
  case_decide; [done|].
  specialize (IH stream). destruct (read_line room stream) as [l r].
  simpl in *. by rewrite IH.
Qed.

Lemma read_line_length room stream :
  (length (read_line room stream).1 ≤ room)%nat.
Proof.
  revert stream. induction room as [|room IH]; intros [|c stream]; simpl;
    try lia.
  case_decide; simpl; [lia|].
  specialize (IH stream). destruct (read_line room stream) as [l r].
  simpl in *. lia.
Qed.

(** A whole line is read when the buffer has room for it. *)
Lemma read_line_whole room l stream :
  newline ∉ l → (length l < room)%nat →
  read_line room (l ++ newline :: stream) = (l ++ [newline], stream).
Proof.
  revert room. induction l as [|c l IH]; intros [|room] Hl Hroom; simpl in *;
    try lia.
  { try case_decide; done. }
  apply not_elem_of_cons in Hl as [Hc Hl].
  case_decide; [congruence|]. rewrite IH by (done || lia). done.
Qed.

(** Every successful [fgets] takes at least one character off the stream. *)
Lemma fgets_progress size stream line stream' :
  (1 < size)%nat → fgets size stream = Some (line, stream') →
  stream = line ++ stream' ∧ (length stream' < length stream)%nat.
Proof.
  intros Hsize. destruct stream as [|c stream]; [done|].
  unfold fgets. intros [= Hrd].
  pose proof (read_line_split (size - 1) (c :: stream)) as Hsplit.
  rewrite Hrd in Hsplit. simpl in Hsplit. split; [done|].
  destruct size as [|[|size]]; [lia..|].
  replace (S (S size) - 1)%nat with (S size) in Hrd by lia.
  simpl in Hrd. case_decide.
  - injection Hrd as <- <-. simpl. lia.
  - destruct (read_line size stream) as [l r] eqn:Hlr.
    injection Hrd as <- <-.
    pose proof (read_line_split size stream) as Hs. rewrite Hlr in Hs.
    apply (f_equal length) in Hs. rewrite length_app in Hs.
    simpl in *. lia.
Qed.

Lemma fgets_whole l stream :
  line_fits l →
  fgets (MAX_TASK_LEN + 10) (l ++ newline :: stream)
  = Some (with_newline l, stream).
Proof.
  intros [Hl Hlen]. unfold fgets.
  destruct (l ++ newline :: stream) eqn:Heq.
  { by destruct l. }
  rewrite <- Heq, read_line_whole; [done..|lia].
Qed.

(** ** loadTasks: the fuel is never used up *)

Lemma load_loop_fuel fuel1 fuel2 head stream :
  (length stream ≤ fuel1)%nat → (length stream ≤ fuel2)%nat →
  load_loop fuel1 head stream = load_loop fuel2 head stream.
Proof.
  revert fuel2 head stream.
  induction fuel1 as [|fuel1 IH]; intros fuel2 head stream H1 H2.
  { destruct stream; [|simpl in H1; lia]. by destruct fuel2. }
  destruct fuel2 as [|fuel2].
  { destruct stream; [done|simpl in H2; lia]. }
  simpl. destruct (fgets _ stream) as [[line stream']|] eqn:Hg; [|done].
  apply fgets_progress in Hg as [_ Hlt]; [|unfold MAX_TASK_LEN; lia].
  destruct (load_line head line); [|done].
  apply IH; lia.
Qed.

Lemma load_loop_unfold fuel head stream :
  (length stream ≤ fuel)%nat →
  load_loop fuel head stream
  = match fgets (MAX_TASK_LEN + 10) stream with
    | None => Done head
    | Some (line, stream') =>
        match load_line head line with
        | Undefined => Undefined
        | Done head' => load_loop (length stream') head' stream'
        end
    end.
Proof.
  intros Hfuel. destruct fuel as [|fuel].
  { by destruct stream; [|simpl in Hfuel; lia]. }
  simpl. destruct (fgets _ stream) as [[line stream']|] eqn:Hg; [|done].
  apply fgets_progress in Hg as [_ Hlt]; [|unfold MAX_TASK_LEN; lia].
  destruct (load_line head line); [|done].
  apply load_loop_fuel; lia.
Qed.

(** ** loadTasks: one line *)

Lemma mark_last_snoc t next x :
  mark_last t (next ++ [x]) = t :: next ++ [set_completed x].
Proof.
  revert t. induction next as [|u next IH]; intros t; simpl; [done|].
  by rewrite IH.
Qed.

Lemma mark_last_app head x :
  match head ++ [x] with
  | [] => head ++ [x]
  | t :: next => mark_last t next
  end = head ++ [set_completed x].
Proof. destruct head as [|t next]; simpl; [done|]. apply mark_last_snoc. Qed.

(** A line either leaves the list as it is or appends its task. *)
Lemma load_line_spec head line :
  load_line head line
  = match sscanf_task MAX_TASK_LEN (c_str line) with
    | Undefined => Undefined
    | Done _ => Done (head ++ option_list (line_task line))
    end.
Proof.
  unfold load_line, line_task.
  destruct (sscanf_task _ _) as [[c d|]|]; simpl; [|by rewrite app_nil_r|done].
  rewrite addTask_app. unfold loaded_task.
  case_decide; [done|]. by rewrite mark_last_app.
Qed.

Lemma load_line_app head line :
  load_line head line = outcome_map (app head) (load_line [] line).
Proof. rewrite !load_line_spec. by destruct (sscanf_task _ _). Qed.

(** ** loadTasks appends to the list it is given *)

Lemma load_loop_app fuel head stream :
  load_loop fuel head stream
  = outcome_map (app head) (load_loop fuel [] stream).
Proof.
  revert head stream. induction fuel as [|fuel IH]; intros head stream; simpl.
  { destruct (fgets _ stream) as [[line stream']|]; simpl;
      by rewrite app_nil_r. }
  destruct (fgets _ stream) as [[line stream']|]; simpl;
    [|by rewrite app_nil_r].
  rewrite (load_line_app head).
  destruct (load_line [] line) as [added|]; simpl; [|done].
  rewrite (IH (head ++ added)), (IH added).
  destruct (load_loop fuel [] stream') as [more|]; simpl; [|done].
  by rewrite app_assoc.
Qed.

Lemma loadTasks_app head file :
  loadTasks head file = outcome_map (app head) (loadTasks [] file).
Proof.
  destruct file as [content|]; simpl; [apply load_loop_app|].
  by rewrite app_nil_r.
Qed.

(** ** loadTasks on a file of whole lines *)

Lemma unlines_cons l ls : unlines (l :: ls) = l ++ newline :: unlines ls.
Proof. unfold unlines, with_newline. simpl. by rewrite <- app_assoc. Qed.

Lemma load_loop_lines fuel head ls :
  Forall line_fits ls → Forall line_defined (with_newline <$> ls) →
  (length (unlines ls) ≤ fuel)%nat →
  load_loop fuel head (unlines ls)
  = Done (head ++ omap line_task (with_newline <$> ls)).
Proof.
  intros Hfit. revert fuel head.
  induction Hfit as [|l ls Hl Hls IH]; intros fuel head Hdef Hfuel.
  { destruct fuel; simpl; by rewrite app_nil_r. }
  rewrite fmap_cons in Hdef. apply Forall_cons in Hdef as [Hd Hdef].
  rewrite load_loop_unfold by done.
  rewrite unlines_cons, fgets_whole by done.
  rewrite load_line_spec. unfold line_defined in Hd.
  destruct (sscanf_task _ _) as [sc|] eqn:Hsc; [|done].
  rewrite IH by (done || lia). rewrite fmap_cons. cbn [omap list_omap].
  destruct (line_task (with_newline l)); simpl; [|by rewrite app_nil_r].
  by rewrite <- app_assoc.
Qed.

Lemma loadTasks_lines head ls :
  Forall line_fits ls → Forall line_defined (with_newline <$> ls) →
  loadTasks head (Some (unlines ls))
  = Done (head ++ omap line_task (with_newline <$> ls)).
Proof. intros Hfit Hdef. by apply load_loop_lines. Qed.

(** ** loadTasks on any file, line by line *)

Lemma load_loop_fgets_lines fuel head stream :
  Forall line_defined (fgets_lines fuel stream) →
  load_loop fuel head stream
  = Done (head ++ omap line_task (fgets_lines fuel stream)).
Proof.
  revert head stream. induction fuel as [|fuel IH]; intros head stream; simpl.
  { intros _. destruct (fgets _ stream) as [[line stream']|];
      by rewrite app_nil_r. }
  destruct (fgets _ stream) as [[line stream']|]; [|by rewrite app_nil_r].
  intros [Hd Hdef]%Forall_cons.
  rewrite load_line_spec. unfold line_defined in Hd.
  destruct (sscanf_task _ _) as [sc|] eqn:Hsc; [|done].
  rewrite IH by done. cbn [omap list_omap].
  destruct (line_task line); simpl; [|by rewrite app_nil_r].
  by rewrite <- app_assoc.
Qed.

(** The load has a result only if [sscanf] is defined on every line. *)
Lemma load_loop_defined fuel head stream head' :
  load_loop fuel head stream = Done head' →
  Forall line_defined (fgets_lines fuel stream).
Proof.
  revert head stream. induction fuel as [|fuel IH]; intros head stream; simpl.
  { constructor. }
  destruct (fgets _ stream) as [[line stream']|]; [|constructor].
  rewrite load_line_spec. unfold line_defined at 1.
  destruct (sscanf_task _ _) as [sc|] eqn:Hsc; [|done].
  intros Hl. constructor; [by rewrite Hsc|by eapply IH].
Qed.

Lemma fgets_lines_unlines fuel ls :
  Forall line_fits ls → (length (unlines ls) ≤ fuel)%nat →
  fgets_lines fuel (unlines ls) = with_newline <$> ls.
Proof.
  intros Hfit. revert fuel.
  induction Hfit as [|l ls Hl Hls IH]; intros fuel Hfuel.
  { by destruct fuel. }
  rewrite unlines_cons in *. rewrite length_app in Hfuel. simpl in Hfuel.
  destruct fuel as [|fuel]; [lia|].
  simpl. rewrite fgets_whole by done. rewrite IH by lia. done.
Qed.

Lemma file_lines_unlines ls :
  Forall line_fits ls → file_lines (unlines ls) = with_newline <$> ls.
Proof. intros Hfit. by apply fgets_lines_unlines. Qed.

(** ** Loading: the claims *)

Ltac by_compute := apply (bool_decide_unpack _); vm_compute; exact I.

(** The side conditions of the file theorems on explicit lines. *)
Ltac lines_fit :=
  repeat (apply Forall_cons; split;
          [split; [by_compute|simpl; unfold MAX_TASK_LEN; lia]|]);
  apply Forall_nil_2.
Ltac lines_defined :=
  repeat (apply Forall_cons; split; [vm_compute; discriminate|]);
  apply Forall_nil_2.

Lemma read_line_short room l :
  newline ∉ l → (length l ≤ room)%nat → read_line room l = (l, []).
Proof.
  revert room. induction l as [|c l IH]; intros room Hl Hlen.
  { by destruct room. }
  destruct room as [|room]; [simpl in Hlen; lia|].
  apply not_elem_of_cons in Hl as [Hc Hl]. simpl.
  case_decide; [done|]. by rewrite IH by (done || simpl in Hlen; lia).
Qed.

(** A file of lines that fit the buffer, the last of them without its
    newline (or empty, when the file ends with a newline). *)
Lemma load_loop_lines_last fuel head ls last :
  Forall line_fits ls → line_fits last →
  Forall line_defined (with_newline <$> ls) → line_defined last →
  (length (unlines ls ++ last) ≤ fuel)%nat →
  load_loop fuel head (unlines ls ++ last)
  = Done (head ++ omap line_task (with_newline <$> ls)
          ++ option_list (line_task last)).
Proof.
  intros Hfit [Hnl Hlen] Hdef Hlast. revert fuel head Hdef.
  induction Hfit as [|l ls Hl Hls IH]; intros fuel head Hdef Hfuel.
  - rewrite load_loop_unfold by done. cbn [unlines fmap list_fmap concat app omap list_omap].
    destruct last as [|c last].
    { simpl. by rewrite app_nil_r. }
    unfold fgets. rewrite read_line_short by (done || unfold MAX_TASK_LEN in *; lia).
    rewrite load_line_spec. unfold line_defined in Hlast.
    destruct (sscanf_task _ _); [|done]. done.
  - rewrite fmap_cons in Hdef. apply Forall_cons in Hdef as [Hd Hdef].
    rewrite load_loop_unfold by done.
    rewrite unlines_cons. rewrite <- app_assoc. cbn [app].
    rewrite fgets_whole by done.
    rewrite load_line_spec. unfold line_defined in Hd.
    destruct (sscanf_task _ _) as [sc|] eqn:Hsc; [|done].
    rewrite IH by (done || lia). rewrite fmap_cons. cbn [omap list_omap].
    destruct (line_task (with_newline l)); simpl; [|by rewrite app_nil_r].
    by rewrite <- !app_assoc.
Qed.

(** C6 (as amended): when the file does not exist, [loadTasks] leaves the
    empty list empty and reports no error; on a file whose lines have at
    most 264 characters in front of their newline it appends, in the
    order of the file, the task of every line on which [sscanf] assigns
    both items, and passes over the other lines.  [ls] are the lines that
    end with a newline, [last] what follows the last newline. *)
Theorem loadTasks_file ls last :
  Forall line_fits ls → line_fits last →
  Forall line_defined (with_newline <$> ls) → line_defined last →
  loadTasks [] None = Done [] ∧
  loadTasks [] (Some (unlines ls ++ last))
  = Done (omap line_task (with_newline <$> ls) ++ option_list (line_task last)).
Proof.
  intros Hfit Hlast Hdef Hdl. split; [done|].
  unfold loadTasks. by rewrite load_loop_lines_last.
Qed.

(** One malformed line between two well-formed ones. *)
Lemma loadTasks_file_witness :
  loadTasks [] None = Done [] ∧
  loadTasks []
    (Some (unlines [str "0,Buy milk"; str "12345678901"; str "1,Pay rent"]
           ++ []))
  = Done [mkTask (str "Buy milk") 0; mkTask (str "Pay rent") 1].
Proof.
  apply (loadTasks_file
           [str "0,Buy milk"; str "12345678901"; str "1,Pay rent"] []).
  - lines_fit.
  - split; [by_compute|simpl; unfold MAX_TASK_LEN; lia].
  - lines_defined.
  - vm_compute. discriminate.
Defined.

(** C6 as stated fails: a line of the file longer than the buffer is read
    in pieces.  The second of these three lines is malformed as a whole,
    and yet the part of it behind its first 265 characters is loaded. *)
Lemma long_line_gives_task :
  line_task (with_newline (str "0,Buy milk")) = Some (mkTask (str "Buy milk") 0) ∧
  line_defined (with_newline (replicate 265 "x"%char ++ str "7,ghost")) ∧
  line_task (with_newline (replicate 265 "x"%char ++ str "7,ghost")) = None ∧
  line_task (with_newline (str "1,Pay rent")) = Some (mkTask (str "Pay rent") 1) ∧
  loadTasks []
    (Some (unlines [str "0,Buy milk";
                    replicate 265 "x"%char ++ str "7,ghost";
                    str "1,Pay rent"]))
  = Done [mkTask (str "Buy milk") 0; mkTask (str "ghost") 1;
          mkTask (str "Pay rent") 1].
Proof.
  split_and!; [reflexivity|vm_compute; discriminate|reflexivity..].
Qed.

(** C9: [loadTasks] on a list that already holds tasks keeps them where
    they are and appends the tasks of the file behind them, in the order
    of the file; what it appends is what it loads into an empty list. *)
Theorem loadTasks_appends head content :
  Forall line_defined (file_lines content) →
  loadTasks head (Some content)
  = Done (head ++ omap line_task (file_lines content)) ∧
  take (length head) (head ++ omap line_task (file_lines content)) = head ∧
  ∀ file, loadTasks head file = outcome_map (app head) (loadTasks [] file).
Proof.
  intros Hdef. split_and!.
  - by apply load_loop_fgets_lines.
  - by rewrite take_app_length.
  - intros file. apply loadTasks_app.
Qed.

Lemma loadTasks_appends_witness :
  loadTasks [mkTask (str "Walk dog") 1]
    (Some (unlines [str "0,Buy milk"; str "1,Pay rent"]))
  = Done [mkTask (str "Walk dog") 1; mkTask (str "Buy milk") 0;
          mkTask (str "Pay rent") 1].
Proof.
  apply (loadTasks_appends [mkTask (str "Walk dog") 1]
           (unlines [str "0,Buy milk"; str "1,Pay rent"])).
  rewrite file_lines_unlines by lines_fit. lines_defined.
Defined.

(** ** sscanf: the items of a line *)

Lemma isdigit_not_special c :
  isdigit c = true →
  isspace c = false ∧ c ≠ "-"%char ∧ c ≠ "+"%char ∧ c ≠ ","%char.
Proof.
  destruct c as [[] [] [] [] [] [] [] []]; vm_compute; intros H;
    (discriminate H || (split_and!; congruence)).
Qed.

Lemma scan_sign_digit c s :
  isdigit c = true → scan_sign (c :: s) = (false, c :: s).
Proof.
  destruct c as [[] [] [] [] [] [] [] []]; vm_compute; intros H;
    (discriminate H || reflexivity).
Qed.

Lemma skip_space_app space rest :
  Forall (λ c, isspace c = true) space →
  skip_space rest = rest → skip_space (space ++ rest) = rest.
Proof.
  intros Hsp Hrest. induction Hsp as [|c space Hc _ IH]; simpl; [done|].
  by rewrite Hc.
Qed.

Lemma skip_space_spec s :
  ∃ space, s = space ++ skip_space s ∧ Forall (λ c, isspace c = true) space.
Proof.
  induction s as [|c s (space & Hs & Hsp)]; simpl.
  { by exists []. }
  destruct (isspace c) eqn:Hc.
  - exists (c :: space). split; [simpl; congruence|by constructor].
  - by exists [].
Qed.

Lemma scan_digits_app acc digits rest :
  Forall (λ c, isdigit c = true) digits →
  match rest with c :: _ => isdigit c = false | [] => True end →
  scan_digits acc (digits ++ rest)
  = (foldl (λ acc c, 10 * acc + digit_value c)%Z acc digits, rest).
Proof.
  intros Hd Hrest. revert acc.
  induction Hd as [|c digits Hc _ IH]; intros acc; simpl.
  - destruct rest as [|c rest]; [done|]. simpl in *. by rewrite Hrest.
  - by rewrite Hc, IH.
Qed.

Lemma scan_digits_spec acc s :
  ∃ digits,
    s = digits ++ (scan_digits acc s).2 ∧
    Forall (λ c, isdigit c = true) digits ∧
    (scan_digits acc s).1
    = foldl (λ acc c, 10 * acc + digit_value c)%Z acc digits.
Proof.
  revert acc. induction s as [|c s IH]; intros acc; simpl.
  { by exists []. }
  destruct (isdigit c) eqn:Hc.
  - destruct (IH (10 * acc + digit_value c)%Z) as (digits & Hs & Hd & Hv).
    exists (c :: digits). split_and!; [simpl; congruence|by constructor|done].
  - by exists [].
Qed.

Lemma scan_sign_spec s :
  ∃ sign,
    s = sign ++ (scan_sign s).2 ∧
    (sign = [] ∨ sign = ["+"%char] ∨ sign = ["-"%char]) ∧
    (scan_sign s).1 = bool_decide (sign = ["-"%char]).
Proof.
  destruct s as [|c s].
  { exists []. split_and!; [done|by left|done]. }
  destruct (decide (c = "-"%char)) as [->|Hm].
  { exists ["-"%char]. split_and!; [done|by right; right|done]. }
  destruct (decide (c = "+"%char)) as [->|Hp].
  { exists ["+"%char]. split_and!; [done|by right; left|done]. }
  exists []. split_and!; [|by left|].
  - destruct c as [[] [] [] [] [] [] [] []]; done.
  - destruct c as [[] [] [] [] [] [] [] []]; done.
Qed.

Lemma in_int_range_spec z : in_int_range z = true ↔ is_int z.
Proof.
  unfold in_int_range, is_int.
  rewrite andb_true_iff, !Z.leb_le. done.
Qed.

(** What [sscanf] assigns is what the line says. *)
Lemma sscanf_task_sound buf s c d :
  sscanf_task buf s = Done (Fields c d) →
  wellformed_line s c d ∧ is_int c ∧ (length d < buf)%nat.
Proof.
  unfold sscanf_task. intros H.
  destruct (skip_space_spec s) as (space & Hs & Hsp).
  destruct (scan_sign_spec (skip_space s)) as (sign & Hsg & Hsign & Hneg).
  destruct (scan_sign (skip_space s)) as [neg s1]. cbn [fst snd] in *.
  destruct s1 as [|ch s1']; [done|].
  destruct (isdigit ch) eqn:Hch; [|done].
  destruct (scan_digits_spec 0 (ch :: s1')) as (digits & Hds & Hdig & Hval).
  destruct (scan_digits 0 (ch :: s1')) as [n s2]. cbn [fst snd] in *.
  destruct s2 as [|c' s3]; [done|].
  case_decide as Hc'; [subst c'|done].
  destruct (before newline s3) as [|d0 d'] eqn:Hbef; [done|].
  destruct (in_int_range _) eqn:Hrange; [|done].
  destruct (length (d0 :: d') <? buf)%nat eqn:Hlen; [|done].
  injection H as <- <-.
  apply in_int_range_spec in Hrange. apply Nat.ltb_lt in Hlen.
  assert (digits ≠ []) as Hne.
  { intros ->. simpl in Hds. injection Hds as -> _. by vm_compute in Hch. }
  split_and!; [|done..].
  exists space, (sign ++ digits ++ comma :: s3). split_and!; [congruence|done|].
  exists sign, digits, s3. split_and!; try done.
  rewrite Hneg, Hval. unfold signed_value, decimal_value.
  case_bool_decide; case_decide; done.
Qed.

(** On a line that says an integer, a comma and a text, [sscanf] assigns
    them when they fit, and is not defined when they do not. *)
Lemma sscanf_task_wellformed buf s c d :
  wellformed_line s c d →
  sscanf_task buf s
  = if in_int_range c && (length d <? buf)%nat then Done (Fields c d)
    else Undefined.
Proof.
  intros (space & rest & -> & Hsp & sign & digits & text & -> & Hsign & Hne
          & Hdig & -> & -> & Hd).
  destruct digits as [|dc digits]; [done|].
  apply Forall_cons in Hdig as [Hdc Hdig].
  destruct (isdigit_not_special dc Hdc) as (Hnsp & _).
  unfold sscanf_task.
  assert (scan_sign (skip_space (space ++ sign ++ (dc :: digits) ++ comma :: text))
          = (bool_decide (sign = ["-"%char]), (dc :: digits) ++ comma :: text))
    as ->.
  { rewrite skip_space_app; [|done|].
    - destruct Hsign as [->|[->| ->]]; cbn [app]; [|done..].
      by rewrite scan_sign_digit.
    - destruct Hsign as [->|[->| ->]]; cbn [app skip_space]; [|done..].
      by rewrite Hnsp. }
  cbn [app]. rewrite Hdc.
  change (dc :: digits ++ comma :: text) with ((dc :: digits) ++ comma :: text).
  rewrite scan_digits_app; [|by constructor|done].
  fold (decimal_value (dc :: digits)).
  rewrite bool_decide_decide. unfold signed_value.
  destruct (decide (sign = ["-"%char]));
    destruct (decide (comma = comma)); try done;
    by destruct (before newline text).
Qed.

(** What the line says is what [sscanf] assigns. *)
Lemma sscanf_task_complete buf s c d :
  wellformed_line s c d → is_int c → (length d < buf)%nat →
  sscanf_task buf s = Done (Fields c d).
Proof.
  intros Hwf Hint Hlen. rewrite (sscanf_task_wellformed _ _ c d) by done.
  rewrite (proj2 (in_int_range_spec c) Hint).
  by rewrite (proj2 (Nat.ltb_lt _ _) Hlen).
Qed.

(** [sscanf] is defined, and assigns nothing or the first item only, on
    every line that does not say an integer, a comma and a text. *)
Lemma sscanf_task_malformed buf s :
  (¬ ∃ c d, wellformed_line s c d) → sscanf_task buf s = Done NoMatch.
Proof.
  intros Hnot. destruct (sscanf_task buf s) as [[c d|]|] eqn:Hsc; [|done|].
  { apply sscanf_task_sound in Hsc as (Hwf & _). destruct Hnot. eauto. }
  exfalso. apply Hnot. revert Hsc. unfold sscanf_task.
  destruct (skip_space_spec s) as (space & Hs & Hsp).
  destruct (scan_sign_spec (skip_space s)) as (sign & Hsg & Hsign & Hneg).
  destruct (scan_sign (skip_space s)) as [neg s1]. cbn [fst snd] in *.
  destruct s1 as [|ch s1']; [done|].
  destruct (isdigit ch) eqn:Hch; [|done].
  destruct (scan_digits_spec 0 (ch :: s1')) as (digits & Hds & Hdig & Hval).
  destruct (scan_digits 0 (ch :: s1')) as [n s2]. cbn [fst snd] in *.
  destruct s2 as [|c' s3]; [done|].
  destruct (decide (c' = comma)) as [->|]; [|done].
  destruct (before newline s3) as [|d0 d'] eqn:Hbef; [done|].
  intros _.
  assert (digits ≠ []) as Hne.
  { intros ->. simpl in Hds. injection Hds as -> _. by vm_compute in Hch. }
  exists (signed_value sign digits), (d0 :: d').
  exists space, (sign ++ digits ++ comma :: s3). split_and!; [congruence|done|].
  exists sign, digits, s3. split_and!; done.
Qed.

Lemma sscanf_task_accepts buf s c d :
  sscanf_task buf s = Done (Fields c d)
  ↔ wellformed_line s c d ∧ is_int c ∧ (length d < buf)%nat.
Proof.
  split; [apply sscanf_task_sound|].
  intros (? & ? & ?). by apply sscanf_task_complete.
Qed.

Lemma begins_with_task_elem_of s z d x : begins_with_task s z d → x ∈ d → x ∈ s.
Proof.
  intros (sign & digits & text & -> & _ & _ & _ & _ & -> & _) Hx.
  apply before_elem_of in Hx.
  rewrite !elem_of_app, elem_of_cons. auto.
Qed.

Lemma wellformed_line_elem_of s z d x : wellformed_line s z d → x ∈ d → x ∈ s.
Proof.
  intros (space & rest & -> & _ & Hrest) Hx.
  rewrite elem_of_app. right. by eapply begins_with_task_elem_of.
Qed.

Lemma strncpy_id d n : NUL ∉ d → (length d ≤ n)%nat → strncpy d n = d.
Proof. intros Hd Hn. unfold strncpy. by rewrite c_str_id, take_ge. Qed.

Lemma loaded_task_eq c d :
  NUL ∉ d → (length d < MAX_TASK_LEN)%nat →
  loaded_task c d = mkTask d (if decide (c = 0%Z) then 0%Z else 1%Z).
Proof.
  intros Hd Hlen. unfold loaded_task, createTask, set_completed.
  unfold MAX_TASK_LEN in *.
  case_decide; simpl; by rewrite strncpy_id by (done || lia).
Qed.

(** A line is loaded exactly when it is well formed after the white space
    at its front, with an integer that fits an [int] and a text that fits
    the description buffer. *)
Lemma line_task_iff line t :
  line_task line = Some t
  ↔ ∃ c d, wellformed_line (c_str line) c d ∧ is_int c ∧
           (length d ≤ 255)%nat ∧
           t = mkTask d (if decide (c = 0%Z) then 0%Z else 1%Z).
Proof.
  unfold line_task. split.
  - destruct (sscanf_task _ _) as [[c d|]|] eqn:Hsc; [|done..].
    intros [= <-]. apply sscanf_task_sound in Hsc as (Hwf & Hint & Hlen).
    exists c, d. split_and!; [done..|unfold MAX_TASK_LEN in Hlen; lia|].
    apply loaded_task_eq; [|done].
    intros Hnul. eapply (c_str_notin line), wellformed_line_elem_of; done.
  - intros (c & d & Hwf & Hint & Hlen & ->).
    rewrite (sscanf_task_complete _ _ c d) by
      (done || unfold MAX_TASK_LEN; lia).
    f_equal. apply loaded_task_eq; [|unfold MAX_TASK_LEN; lia].
    intros Hnul. eapply (c_str_notin line), wellformed_line_elem_of; done.
Qed.

(** ** The format of a line: the claim *)

Lemma load_line_wellformed head line c d :
  line_defined line → wellformed_line (c_str line) c d →
  load_line head line
  = Done (head ++ [mkTask d (if decide (c = 0%Z) then 0%Z else 1%Z)]).
Proof.
  intros Hdef Hwf. rewrite load_line_spec. unfold line_defined in Hdef.
  unfold line_task.
  rewrite (sscanf_task_wellformed _ _ c d) in * by done.
  destruct (in_int_range c && (length d <? MAX_TASK_LEN)%nat) eqn:Hfit;
    [|done].
  apply andb_true_iff in Hfit as [_ Hlen%Nat.ltb_lt]. simpl.
  rewrite loaded_task_eq; [done| |done].
  intros Hnul. eapply (c_str_notin line), wellformed_line_elem_of; done.
Qed.

Lemma load_line_malformed head line :
  (¬ ∃ c d, wellformed_line (c_str line) c d) → load_line head line = Done head.
Proof.
  intros Hnot. unfold load_line. by rewrite sscanf_task_malformed.
Qed.

(** C10 (as amended): a line that [fgets] has read, and on which the
    behaviour of [sscanf] is defined, is loaded exactly when, after white
    space at its front if there is any, it has a decimal integer
    (possibly signed and of several digits) followed at once by a comma
    and by at least one character other than a newline; every other
    such line leaves the list as it is.  The loaded task has the text
    after the comma and is completed exactly when the integer is not
    zero, so 2 and -1 give completed tasks. *)
Theorem load_line_format head line :
  line_defined line →
  ((∃ t, load_line head line = Done (head ++ [t]))
   ↔ ∃ c d, wellformed_line (c_str line) c d) ∧
  (∀ c d, wellformed_line (c_str line) c d →
          load_line head line
          = Done (head ++ [mkTask d (if decide (c = 0%Z) then 0%Z else 1%Z)])) ∧
  ((¬ ∃ c d, wellformed_line (c_str line) c d) →
   load_line head line = Done head) ∧
  load_line head (str "2,x") = Done (head ++ [mkTask (str "x") 1]) ∧
  load_line head (str "-1,x") = Done (head ++ [mkTask (str "x") 1]) ∧
  load_line head (str "0,x") = Done (head ++ [mkTask (str "x") 0]).
Proof.
  intros Hdef. split_and!.
  - split.
    + intros [t Ht].
      destruct (sscanf_task MAX_TASK_LEN (c_str line)) as [[c d|]|] eqn:Hsc.
      * apply sscanf_task_sound in Hsc as (Hwf & _). eauto.
      * exfalso. unfold load_line in Ht. rewrite Hsc in Ht.
        injection Ht as Ht. apply (f_equal length) in Ht.
        rewrite length_app in Ht. simpl in Ht. lia.
      * done.
    + intros (c & d & Hwf). eexists. by apply load_line_wellformed.
  - intros c d. by apply load_line_wellformed.
  - apply load_line_malformed.
  - rewrite load_line_spec. done.
  - rewrite load_line_spec. done.
  - rewrite load_line_spec. done.
Qed.

Lemma load_line_format_witness :
  (∃ t, load_line [mkTask (str "a") 0] (str "  +07,x y" ++ [newline])
        = Done ([mkTask (str "a") 0] ++ [t]))
  ↔ ∃ c d, wellformed_line (c_str (str "  +07,x y" ++ [newline])) c d.
Proof.
  apply (load_line_format [mkTask (str "a") 0] (str "  +07,x y" ++ [newline])).
  vm_compute. discriminate.
Defined.

(** C10 as stated fails: a line that begins with a space, not with the
    integer, is loaded all the same, because [%d] skips white space. *)
Lemma leading_space_accepted :
  line_task (str " 1,a") = Some (mkTask (str "a") 1) ∧
  accepted (c_str (str " 1,a")) ∧
  ¬ ∃ z d, begins_with_task (c_str (str " 1,a")) z d.
Proof.
  split_and!.
  - reflexivity.
  - by exists 1%Z, (str "a").
  - intros (z & d & sign & digits & text & Heq & Hsign & Hne & Hdig & _).
    destruct digits as [|dc digits]; [done|].
    apply Forall_cons in Hdig as [Hdc _].
    destruct Hsign as [->|[->| ->]]; vm_compute in Heq;
      try discriminate Heq.
    injection Heq as Hc _. subst dc. by vm_compute in Hdc.
Qed.

(** ** Properties of all the tasks of a list kept by the operations *)

Section preserved.
Variable P : Task → Prop.
Hypothesis P_set_completed : ∀ t, P t → P (set_completed t).

Lemma mark_loop_Forall current count index head' :
  Forall P current → mark_loop current count index = Some head' →
  Forall P head'.
Proof using P_set_completed.
  intros Hall. revert count head'.
  induction Hall as [|t next Ht Hnext IH]; intros count head'; simpl.
  { done. }
  destruct (count <? index)%Z.
  - destruct (mark_loop next _ index) as [next'|] eqn:Hm; [|done].
    intros [= <-]. constructor; [done|]. by eapply IH.
  - intros [= <-]. constructor; [by apply P_set_completed|done].
Qed.

Lemma markComplete_Forall head index :
  Forall P head → Forall P (markComplete head index).2.
Proof using P_set_completed.
  intros Hall. unfold markComplete.
  destruct (mark_loop head 1 index) eqn:Hm; simpl; [|done].
  by eapply mark_loop_Forall.
Qed.

Lemma delete_loop_Forall current count bound head' :
  Forall P current → delete_loop current count bound = Some head' →
  Forall P head'.
Proof.
  intros Hall. revert count head'.
  induction Hall as [|t next Ht Hnext IH]; intros count head'; simpl.
  { done. }
  destruct (count <? bound)%Z.
  - destruct (delete_loop next _ bound) as [next'|] eqn:Hm; [|done].
    intros [= <-]. constructor; [done|]. by eapply IH.
  - destruct Hnext as [|u next' Hu Hnext']; [done|].
    intros [= <-]. by constructor.
Qed.

Lemma deleteTask_Forall head index :
  Forall P head → Forall P (deleteTask head index).2.
Proof.
  intros Hall. unfold deleteTask. destruct Hall as [|t next Ht Hnext]; [done|].
  destruct (index =? 1)%Z; [done|].
  destruct (delete_loop _ 1 _) eqn:Hd; simpl; [|by constructor].
  eapply delete_loop_Forall; [|done]. by constructor.
Qed.

Lemma addTask_Forall head d :
  P (createTask d) → Forall P head → Forall P (addTask head d).
Proof.
  intros Hd Hall. rewrite addTask_app. apply Forall_app. split; [done|].
  by constructor.
Qed.

Hypothesis P_line_task : ∀ line t, line_task line = Some t → P t.

Lemma load_line_Forall head line head' :
  Forall P head → load_line head line = Done head' → Forall P head'.
Proof using P_line_task.
  intros Hall. rewrite load_line_spec.
  destruct (sscanf_task _ _); [|done]. intros [= <-].
  apply Forall_app. split; [done|].
  destruct (line_task line) eqn:Ht; simpl; [|done].
  constructor; [by eapply P_line_task|done].
Qed.

Lemma load_loop_Forall fuel head stream head' :
  Forall P head → load_loop fuel head stream = Done head' → Forall P head'.
Proof using P_line_task.
  revert head stream. induction fuel as [|fuel IH]; intros head stream Hall;
    simpl.
  { destruct (fgets _ stream) as [[line stream']|]; by intros [= <-]. }
  destruct (fgets _ stream) as [[line stream']|]; [|by intros [= <-]].
  destruct (load_line head line) as [head1|] eqn:Hl; [|done].
  apply IH. by eapply load_line_Forall.
Qed.

Lemma loadTasks_Forall head file head' :
  Forall P head → loadTasks head file = Done head' → Forall P head'.
Proof using P_line_task.
  intros Hall. destruct file as [content|]; simpl.
  - by apply load_loop_Forall.
  - by intros [= <-].
Qed.
End preserved.

(** ** The descriptions of the tasks that the program builds *)

Lemma strncpy_elem_of d n x : x ∈ strncpy d n → x ∈ d.
Proof.
  unfold strncpy, c_str. intros Hx.
  eapply before_elem_of, subseteq_take, Hx.
Qed.

Lemma strncpy_length d n : (length (strncpy d n) ≤ n)%nat.
Proof. unfold strncpy. rewrite length_take. lia. Qed.

Lemma strncpy_nul d n : NUL ∉ strncpy d n.
Proof.
  unfold strncpy. intros Hx. apply subseteq_take in Hx.
  by apply c_str_notin in Hx.
Qed.

Lemma createTask_stored_ok d : stored_ok (createTask d).
Proof.
  split_and!; [by left|apply strncpy_nul|apply strncpy_length].
Qed.

Lemma createTask_description_ok d :
  newline ∉ d → description_ok (createTask d).
Proof.
  intros Hd. split; [apply strncpy_length|].
  intros Hx. by apply strncpy_elem_of in Hx.
Qed.

Lemma set_completed_stored_ok t : stored_ok t → stored_ok (set_completed t).
Proof. intros (_ & ? & ?). split_and!; [by right|done..]. Qed.

Lemma set_completed_description_ok t :
  description_ok t → description_ok (set_completed t).
Proof. done. Qed.

Lemma cut_newline_notin s : newline ∉ cut_newline s.
Proof. apply before_notin. Qed.

Lemma wellformed_line_one_line s c d :
  wellformed_line s c d → d ≠ [] ∧ newline ∉ d.
Proof.
  intros (space & rest & _ & _ & sign & digits & text & _ & _ & _ & _ & _
          & -> & Hd).
  split; [done|apply before_notin].
Qed.

Lemma line_task_description_ok line t :
  line_task line = Some t → description_ok t.
Proof.
  intros Ht. apply line_task_iff in Ht as (c & d & Hwf & _ & Hlen & ->).
  apply wellformed_line_one_line in Hwf as [_ Hnl].
  split; [done|done].
Qed.

Lemma line_task_stored_ok line t : line_task line = Some t → stored_ok t.
Proof.
  unfold line_task. destruct (sscanf_task _ _) as [[c d|]|]; [|done..].
  intros [= <-]. unfold loaded_task.
  case_decide; [|apply set_completed_stored_ok]; apply createTask_stored_ok.
Qed.

(** Every list that the operations build holds tasks with flag 0 or 1 and
    a C string of at most 255 characters. *)
Lemma apply_op_stored_ok head o :
  Forall stored_ok head → Forall stored_ok (apply_op head o).
Proof.
  intros Hall. destruct o as [d|i|i]; simpl.
  - apply addTask_Forall; [apply createTask_stored_ok|done].
  - apply markComplete_Forall; [apply set_completed_stored_ok|done].
  - by apply deleteTask_Forall.
Qed.

Lemma run_snoc ops o : run (ops ++ [o]) = apply_op (run ops) o.
Proof. unfold run. by rewrite foldl_app. Qed.

Lemma run_stored_ok ops : Forall stored_ok (run ops).
Proof.
  induction ops as [|o ops IH] using rev_ind; [constructor|].
  rewrite run_snoc. by apply apply_op_stored_ok.
Qed.

(** ** The descriptions of the stored tasks: the claim *)

(** C8 (as amended): every operation keeps the descriptions at 255
    characters at most, whatever else the list holds: [createTask] cuts
    the description to its first 255 characters, and so does the task
    that [loadTasks] builds from a line.  The descriptions stay free of
    newlines under [markComplete], [deleteTask] and [loadTasks], under
    the menu's add action, which cuts its input line at the newline, and
    under [addTask] when the description passed to it has no newline.
    For [loadTasks] this is said of every load that has a result. *)
Theorem descriptions_kept_ok head :
  (∀ d, description (createTask d) = take 255 (c_str d) ∧
        (length (description (createTask d)) ≤ 255)%nat) ∧
  (∀ c d, (length (description (loaded_task c d)) ≤ 255)%nat) ∧
  (Forall (λ t, (length (description t) ≤ 255)%nat) head →
   (∀ d, Forall (λ t, (length (description t) ≤ 255)%nat) (addTask head d)) ∧
   (∀ stdin, Forall (λ t, (length (description t) ≤ 255)%nat)
               (add_from_input head stdin)) ∧
   (∀ index, Forall (λ t, (length (description t) ≤ 255)%nat)
               (markComplete head index).2) ∧
   (∀ index, Forall (λ t, (length (description t) ≤ 255)%nat)
               (deleteTask head index).2) ∧
   (∀ file head', loadTasks head file = Done head' →
                  Forall (λ t, (length (description t) ≤ 255)%nat) head')) ∧
  (Forall (λ t, newline ∉ description t) head →
   (∀ d, newline ∉ d → Forall (λ t, newline ∉ description t) (addTask head d)) ∧
   (∀ stdin, Forall (λ t, newline ∉ description t)
               (add_from_input head stdin)) ∧
   (∀ index, Forall (λ t, newline ∉ description t)
               (markComplete head index).2) ∧
   (∀ index, Forall (λ t, newline ∉ description t)
               (deleteTask head index).2) ∧
   (∀ file head', loadTasks head file = Done head' →
                  Forall (λ t, newline ∉ description t) head')).
Proof.
  split_and!.
  - intros d. split; [done|apply strncpy_length].
  - intros c d. unfold loaded_task. case_decide; apply strncpy_length.
  - intros Hall. split_and!.
    + intros d. apply addTask_Forall; [apply strncpy_length|done].
    + intros stdin. unfold add_from_input.
      destruct (fgets _ stdin) as [[line rest]|]; [|done].
      apply addTask_Forall; [apply strncpy_length|done].
    + intros index. by apply markComplete_Forall.
    + intros index. by apply deleteTask_Forall.
    + intros file head'. apply loadTasks_Forall; [|done].
      intros line t Ht. by apply line_task_description_ok in Ht as [? _].
  - intros Hall. split_and!.
    + intros d Hd. apply addTask_Forall; [|done].
      by apply createTask_description_ok.
    + intros stdin. unfold add_from_input.
      destruct (fgets _ stdin) as [[line rest]|]; [|done].
      apply addTask_Forall; [|done].
      apply createTask_description_ok, cut_newline_notin.
    + intros index. by apply markComplete_Forall.
    + intros index. by apply deleteTask_Forall.
    + intros file head'. apply loadTasks_Forall; [|done].
      intros line t Ht. by apply line_task_description_ok in Ht as [_ ?].
Qed.

(** The bound on the length on a list that holds a newline, and the
    absence of newlines on a list that holds none. *)
Lemma descriptions_kept_ok_witness :
  Forall (λ t, (length (description t) ≤ 255)%nat)
    (markComplete [mkTask ["a"%char; newline; "b"%char] 0] 1).2 ∧
  Forall (λ t, newline ∉ description t)
    (addTask [mkTask (str "Walk dog") 0] (str "Buy milk")).
Proof.
  split.
  - apply (descriptions_kept_ok [mkTask ["a"%char; newline; "b"%char] 0]).
    apply Forall_cons. split; [simpl; lia|apply Forall_nil_2].
  - apply (descriptions_kept_ok [mkTask (str "Walk dog") 0]).
    + apply Forall_cons. split; [by_compute|apply Forall_nil_2].
    + by_compute.
Defined.

(** C8 as stated fails: [addTask] stores a newline that is in the
    description it is given; only [main] cuts the input at the newline. *)
Lemma addTask_keeps_newline :
  Forall description_ok [] ∧
  ¬ Forall description_ok (addTask [] ["a"%char; newline; "b"%char]).
Proof.
  split; [constructor|].
  intros H. unfold addTask in H. apply Forall_cons in H as [[_ Hnl] _].
  apply Hnl. change (newline ∈ ["a"%char; newline; "b"%char]).
  rewrite !elem_of_cons. auto.
Qed.

(** ** Saving and loading again *)

Lemma line_task_defined line t : line_task line = Some t → line_defined line.
Proof.
  unfold line_task, line_defined. by destruct (sscanf_task _ _).
Qed.

Lemma task_line_saved t : task_line t = with_newline (saved_line t).
Proof.
  unfold task_line, with_newline, saved_line.
  by rewrite <- app_assoc.
Qed.

Lemma write_tasks_unlines head : write_tasks head = unlines (saved_line <$> head).
Proof.
  induction head as [|t head IH]; [done|].
  cbn [write_tasks]. rewrite fmap_cons, unlines_cons, IH, task_line_saved.
  unfold with_newline. by rewrite <- app_assoc.
Qed.

(** The saved line of a task is read whole and gives the task back. *)
Lemma saved_line_task t :
  stored_ok t → one_line t →
  line_fits (saved_line t) ∧ line_task (with_newline (saved_line t)) = Some t.
Proof.
  destruct t as [d c]. unfold stored_ok, one_line, saved_line. simpl.
  intros (Hc & Hnul & Hlen) (Hne & Hnl).
  rewrite (c_str_id d) by done.
  assert (print_int c = [if decide (c = 0%Z) then "0"%char else "1"%char])
    as -> by (by destruct Hc as [-> | ->]).
  unfold MAX_TASK_LEN in *. split.
  - split; [|simpl; lia]. cbn [app].
    rewrite !not_elem_of_cons. split_and!; [by case_decide|done..].
  - apply line_task_iff. exists c, d.
    split_and!; [|destruct Hc as [-> | ->]; int_lia|lia|
                 by destruct Hc as [-> | ->]].
    rewrite c_str_id.
    2:{ unfold with_newline. simpl. rewrite !not_elem_of_cons, not_elem_of_app.
        rewrite not_elem_of_cons.
        split_and!; try done; [by case_decide|apply not_elem_of_nil]. }
    exists [], (with_newline ([if decide (c = 0%Z) then "0"%char
                               else "1"%char] ++ comma :: d)).
    split_and!; [done|constructor|].
    exists [], [if decide (c = 0%Z) then "0"%char else "1"%char],
      (d ++ [newline]).
    split_and!; [done|by left|done| |by destruct Hc as [-> | ->]|
                 by rewrite before_app|done].
    constructor; [by case_decide|constructor].
Qed.

Lemma omap_saved_lines head :
  Forall stored_ok head → Forall one_line head →
  Forall line_fits (saved_line <$> head) ∧
  Forall line_defined (with_newline <$> (saved_line <$> head)) ∧
  omap line_task (with_newline <$> (saved_line <$> head)) = head.
Proof.
  intros Hst. induction Hst as [|t head Ht _ IH]; intros Hone.
  { split_and!; by constructor. }
  apply Forall_cons in Hone as [Ht1 Hone].
  destruct (IH Hone) as (Hfit & Hdef & Heq).
  destruct (saved_line_task t Ht Ht1) as [Hf Hl].
  rewrite !fmap_cons. cbn [omap list_omap]. rewrite Hl, Heq.
  split_and!; [by constructor| |done].
  constructor; [by eapply line_task_defined|done].
Qed.

Lemma write_tasks_load head :
  Forall stored_ok head → Forall one_line head →
  loadTasks [] (Some (write_tasks head)) = Done head.
Proof.
  intros Hst Hone.
  destruct (omap_saved_lines head Hst Hone) as (Hfit & Hdef & Heq).
  rewrite write_tasks_unlines, loadTasks_lines by done. by rewrite Heq.
Qed.

(** C3 (as amended): for every list of tasks built from the empty list by
    [addTask], [markComplete] and [deleteTask] in which every description
    is one non-empty line, saving it and loading the file into an empty
    list gives the same tasks in the same order. *)
Theorem save_load_roundtrip ops file :
  Forall one_line (run ops) →
  loadTasks [] (saveTasks true (run ops) file) = Done (run ops).
Proof.
  intros Hone. simpl. apply write_tasks_load; [apply run_stored_ok|done].
Qed.

Lemma save_load_roundtrip_witness :
  loadTasks []
    (saveTasks true
       (run [Add (str "Buy milk"); Add (str "Pay rent"); Mark 2; Delete 1;
             Add (str "Walk dog")])
       None)
  = Done [mkTask (str "Pay rent") 1; mkTask (str "Walk dog") 0].
Proof.
  apply (save_load_roundtrip
           [Add (str "Buy milk"); Add (str "Pay rent"); Mark 2; Delete 1;
            Add (str "Walk dog")] None).
  change (Forall one_line [mkTask (str "Pay rent") 1;
                           mkTask (str "Walk dog") 0]).
  repeat (apply Forall_cons; split; [split; [discriminate|by_compute]|]).
  apply Forall_nil_2.
Defined.

(** C3 as stated fails: a task with an empty description is saved as the
    line "0," on which [%[^\n]] matches nothing, so the load passes over
    it; and a description with a newline is saved as two lines. *)
Lemma save_load_loses_tasks :
  loadTasks [] (saveTasks true (run [Add (str "")]) None)
  ≠ Done (run [Add (str "")]) ∧
  loadTasks [] (saveTasks true (run [Add ["a"%char; newline; "b"%char]]) None)
  ≠ Done (run [Add ["a"%char; newline; "b"%char]]).
Proof. split; vm_compute; discriminate. Qed.

(** * Further properties of the operations *)

(** ** markComplete *)

Lemma mark_loop_related current count index head' :
  mark_loop current count index = Some head' →
  Forall2 (λ t t', description t' = description t ∧
                   (completed t' = completed t ∨ completed t' = 1%Z))
          current head'.
Proof.
  revert count head'. induction current as [|t next IH]; intros count head';
    simpl; [done|].
  destruct (count <? index)%Z.
  - destruct (mark_loop next _ index) as [next'|] eqn:Hm; [|done].
    intros [= <-]. constructor; [by auto|by eapply IH].
  - intros [= <-]. constructor; [by auto|].
    apply Forall2_same_length_lookup_2; [done|].
    intros i x y Hx Hy. rewrite Hx in Hy. injection Hy as <-. auto.
Qed.

Lemma mark_loop_again current count index head' :
  mark_loop current count index = Some head' →
  mark_loop head' count index = Some head'.
Proof.
  revert count head'. induction current as [|t next IH]; intros count head';
    simpl; [done|].
  destruct (count <? index)%Z eqn:Hlt.
  - destruct (mark_loop next _ index) as [next'|] eqn:Hm; [|done].
    intros [= <-]. simpl. rewrite Hlt. by rewrite (IH _ _ Hm).
  - intros [= <-]. simpl. by rewrite Hlt.
Qed.

(** X1: for a valid index [markComplete] reports success, keeps the
    length, replaces the task at that position by the same task with
    [completed = 1], and leaves every other position as it is. *)
Theorem markComplete_valid head index :
  is_int index → (1 ≤ index ≤ Z.of_nat (length head))%Z →
  (markComplete head index).1 = MarkedComplete ∧
  length (markComplete head index).2 = length head ∧
  ∀ p, task_at (markComplete head index).2 p
       = if (p =? index)%Z then set_completed <$> task_at head p
         else task_at head p.
Proof.
  intros Hi [H1 Hlen]. rewrite markComplete_spec by done.
  destruct (lookup_lt_is_Some_2 head (Z.to_nat (index - 1))) as [t Ht]; [lia|].
  rewrite Ht. simpl. split_and!; [done|apply length_alter|].
  intros p. unfold task_at. destruct (Z.ltb_spec p 1) as [Hp|Hp].
  { destruct (Z.eqb_spec p index); [lia|done]. }
  destruct (Z.eqb_spec p index) as [->|Hne].
  - apply list_lookup_alter_eq.
  - apply list_lookup_alter_ne. lia.
Qed.

Lemma markComplete_valid_witness :
  (markComplete [mkTask (str "a") 0; mkTask (str "b") 0] 2).1 = MarkedComplete ∧
  length (markComplete [mkTask (str "a") 0; mkTask (str "b") 0] 2).2 = 2%nat ∧
  ∀ p, task_at (markComplete [mkTask (str "a") 0; mkTask (str "b") 0] 2).2 p
       = if (p =? 2)%Z
         then set_completed <$> task_at [mkTask (str "a") 0; mkTask (str "b") 0] p
         else task_at [mkTask (str "a") 0; mkTask (str "b") 0] p.
Proof.
  apply (markComplete_valid [mkTask (str "a") 0; mkTask (str "b") 0] 2).
  - unfold is_int, INT_MIN, INT_MAX. lia.
  - simpl. lia.
Defined.

(** X2: whatever the index, [markComplete] neither adds, removes nor
    reorders tasks, changes no description, and changes no flag except
    to 1. *)
Theorem markComplete_keeps head index :
  Forall2 (λ t t', description t' = description t ∧
                   (completed t' = completed t ∨ completed t' = 1%Z))
          head (markComplete head index).2.
Proof.
  unfold markComplete.
  destruct (mark_loop head 1 index) as [head'|] eqn:Hm; simpl.
  - by eapply mark_loop_related.
  - apply Forall2_same_length_lookup_2; [done|].
    intros i x y Hx Hy. rewrite Hx in Hy. injection Hy as <-. auto.
Qed.

(** X3: marking the same index a second time changes nothing more and
    gives the same report. *)
Theorem markComplete_twice head index :
  markComplete (markComplete head index).2 index = markComplete head index.
Proof.
  unfold markComplete.
  destruct (mark_loop head 1 index) as [head'|] eqn:Hm; simpl.
  - by rewrite (mark_loop_again _ _ _ _ Hm).
  - by rewrite Hm.
Qed.

(** X4: [markComplete] reports that the task is not found exactly when
    the list is empty or the index is beyond its end, and then the list
    is unchanged. *)
Theorem markComplete_not_found head index :
  is_int index →
  ((markComplete head index).1 = TaskNotFound
   ↔ head = [] ∨ (Z.of_nat (length head) < index)%Z) ∧
  ((markComplete head index).1 = TaskNotFound →
   (markComplete head index).2 = head).
Proof.
  intros Hi. rewrite markComplete_spec by done.
  destruct (head !! Z.to_nat (index - 1)) as [t|] eqn:Ht; simpl.
  - split; [|done]. split; [done|].
    apply lookup_lt_Some in Ht. intros [->|Hlt]; [simpl in Ht; lia|].
    lia.
  - split; [|done]. split; [|done]. intros _.
    apply lookup_ge_None in Ht. destruct head as [|t next]; [by left|].
    right. simpl in *. lia.
Qed.

Lemma markComplete_not_found_witness :
  ((markComplete [mkTask (str "a") 0] 2).1 = TaskNotFound
   ↔ [mkTask (str "a") 0] = [] ∨ (Z.of_nat (length [mkTask (str "a") 0]) < 2)%Z) ∧
  ((markComplete [mkTask (str "a") 0] 2).1 = TaskNotFound →
   (markComplete [mkTask (str "a") 0] 2).2 = [mkTask (str "a") 0]).
Proof.
  apply (markComplete_not_found [mkTask (str "a") 0] 2).
  unfold is_int, INT_MIN, INT_MAX. lia.
Defined.

(** X5: on a list that is not empty, every index below 1 (and 1 itself)
    marks the first task: the loop that looks for the position does not
    run, and only the end of the list is checked. *)
Theorem markComplete_first_below head index :
  (index ≤ 1)%Z → head ≠ [] →
  (markComplete head index).1 = MarkedComplete ∧
  (markComplete head index).2 = alter set_completed 0 head.
Proof.
  intros Hi Hne. destruct head as [|t next]; [done|].
  by rewrite markComplete_below.
Qed.

Lemma markComplete_first_below_witness :
  (markComplete [mkTask (str "a") 0; mkTask (str "b") 0] (-3)).1 = MarkedComplete ∧
  (markComplete [mkTask (str "a") 0; mkTask (str "b") 0] (-3)).2
  = [mkTask (str "a") 1; mkTask (str "b") 0].
Proof.
  apply (markComplete_first_below [mkTask (str "a") 0; mkTask (str "b") 0] (-3)).
  - lia.
  - discriminate.
Defined.

(** ** deleteTask *)

Lemma delete_loop_sublist current count bound head' :
  delete_loop current count bound = Some head' →
  head' `sublist_of` current ∧ length current = S (length head').
Proof.
  revert count head'. induction current as [|t next IH]; intros count head';
    simpl; [done|].
  destruct (count <? bound)%Z.
  - destruct (delete_loop next _ bound) as [next'|] eqn:Hm; [|done].
    intros [= <-]. destruct (IH _ _ Hm) as [Hsub Hlen].
    split; [by apply sublist_skip|simpl; lia].
  - destruct next as [|u next']; [done|]. intros [= <-].
    split; [by apply sublist_skip, sublist_cons|done].
Qed.

(** X6: whatever the index, [deleteTask] removes at most one task and
    keeps the others as they are and in their order; it reports a
    deletion exactly when it has removed one. *)
Theorem deleteTask_removes_one head index :
  (deleteTask head index).2 `sublist_of` head ∧
  ((deleteTask head index).1 = TaskDeleted
   ↔ length head = S (length (deleteTask head index).2)) ∧
  ((deleteTask head index).1 ≠ TaskDeleted → (deleteTask head index).2 = head).
Proof.
  unfold deleteTask. destruct head as [|t next]; [done|].
  destruct (index =? 1)%Z.
  { cbn [fst snd]. split_and!; [by apply sublist_cons|done|done]. }
  destruct (delete_loop (t :: next) 1 (wrap_int (index - 1)))
    as [head'|] eqn:Hd; cbn [fst snd].
  - destruct (delete_loop_sublist _ _ _ _ Hd) as [Hsub Hlen].
    split_and!; [done|done|done].
  - split_and!; [done| |done]. split; [done|lia].
Qed.

(** X7: for an index from 1 on, [deleteTask] reports a deletion exactly
    when the index is at most the length; beyond the end it leaves the
    list as it is and reports that the list is empty, if it is, and that
    the task is not found otherwise. *)
Theorem deleteTask_not_found head index :
  is_int index → (1 ≤ index)%Z →
  ((deleteTask head index).1 = TaskDeleted
   ↔ (index ≤ Z.of_nat (length head))%Z) ∧
  ((Z.of_nat (length head) < index)%Z →
   deleteTask head index
   = (match head with [] => ListEmpty | _ => TaskNotFound end, head)).
Proof.
  intros Hi H1. rewrite deleteTask_spec by done.
  destruct (head !! Z.to_nat (index - 1)) as [t|] eqn:Ht; simpl.
  - apply lookup_lt_Some in Ht. split; [|lia]. split; [lia|done].
  - apply lookup_ge_None in Ht. split; [|done].
    split; [by destruct head|lia].
Qed.

Lemma deleteTask_not_found_witness :
  ((deleteTask [mkTask (str "a") 0] 2).1 = TaskDeleted
   ↔ (2 ≤ Z.of_nat (length [mkTask (str "a") 0]))%Z) ∧
  ((Z.of_nat (length [mkTask (str "a") 0]) < 2)%Z →
   deleteTask [mkTask (str "a") 0] 2 = (TaskNotFound, [mkTask (str "a") 0])).
Proof.
  apply (deleteTask_not_found [mkTask (str "a") 0] 2).
  - unfold is_int, INT_MIN, INT_MAX. lia.
  - lia.
Defined.

(** X8: an index below 1 (above [INT_MIN]) removes the second task of a
    list of two or more, and finds no task in a list of one: the loop
    that looks for the position does not run. *)
Theorem deleteTask_second_below t next index :
  (INT_MIN < index < 1)%Z →
  deleteTask (t :: next) index
  = match next with
    | [] => (TaskNotFound, [t])
    | _ :: next' => (TaskDeleted, t :: next')
    end.
Proof.
  intros Hi. destruct next as [|u next']; [|by apply deleteTask_below].
  unfold deleteTask. destruct (Z.eqb_spec index 1) as [->|_]; [int_lia|].
  rewrite wrap_int_id by int_lia.
  simpl. destruct (Z.ltb_spec 1 (index - 1)); [int_lia|done].
Qed.

Lemma deleteTask_second_below_witness :
  deleteTask [mkTask (str "a") 0; mkTask (str "b") 0; mkTask (str "c") 0] (-1)
  = (TaskDeleted, [mkTask (str "a") 0; mkTask (str "c") 0]).
Proof.
  apply (deleteTask_second_below (mkTask (str "a") 0)
           [mkTask (str "b") 0; mkTask (str "c") 0] (-1)).
  unfold INT_MIN. lia.
Defined.

(** X9: deleting the last position after an [addTask] gives the list
    back as it was before. *)
Theorem deleteTask_addTask head d :
  is_int (Z.of_nat (length head) + 1) →
  deleteTask (addTask head d) (Z.of_nat (length head) + 1)
  = (TaskDeleted, head).
Proof.
  intros Hi. rewrite deleteTask_spec by (done || lia).
  rewrite addTask_app.
  replace (Z.to_nat (Z.of_nat (length head) + 1 - 1)) with (length head) by lia.
  rewrite list_lookup_middle by done.
  replace (head ++ [createTask d]) with (head ++ createTask d :: []) by done.
  by rewrite delete_middle, app_nil_r.
Qed.

Lemma deleteTask_addTask_witness :
  deleteTask (addTask [mkTask (str "a") 1] (str "b")) 2
  = (TaskDeleted, [mkTask (str "a") 1]).
Proof.
  apply (deleteTask_addTask [mkTask (str "a") 1] (str "b")).
  unfold is_int, INT_MIN, INT_MAX. simpl. lia.
Defined.

(** ** displayTasks *)

Lemma display_rows_length current index :
  length (display_rows current index) = length current.
Proof.
  revert index. induction current as [|t next IH]; intros index; simpl;
    [done|]. by rewrite IH.
Qed.

Lemma display_rows_from current index k :
  is_int index → (index + Z.of_nat (length current) ≤ INT_MAX + 1)%Z →
  display_rows current index !! k
  = (λ t, mkRow (index + Z.of_nat k) (mark_of t) (c_str (description t)))
    <$> current !! k.
Proof.
  revert index k. induction current as [|t next IH]; intros index k Hi Hlen;
    simpl; [done|].
  destruct k as [|k]; simpl.
  { by rewrite Z.add_0_r. }
  destruct next as [|u next]; [done|].
  assert (is_int (index + 1)) as Hi' by (simpl in Hlen; int_lia).
  rewrite wrap_int_id by done.
  rewrite IH by (done || simpl in *; lia).
  replace (index + 1 + Z.of_nat k)%Z with (index + Z.of_nat (S k))%Z by lia.
  done.
Qed.

Lemma display_rows_lookup head k :
  (Z.of_nat (length head) ≤ INT_MAX)%Z →
  display_rows head 1 !! k
  = (λ t, mkRow (Z.of_nat k + 1) (mark_of t) (c_str (description t)))
    <$> head !! k.
Proof.
  intros Hlen. rewrite display_rows_from by (apply is_int_1 || lia).
  by rewrite Z.add_comm.
Qed.

(** X10: [displayTasks] prints the notice for the empty list exactly
    when the list is empty; otherwise it prints one line for each task,
    in the order of the list, numbered from 1 with the positions that
    [markComplete] and [deleteTask] take, with the mark X exactly on the
    tasks whose flag is not 0. *)
Theorem displayTasks_numbering head :
  (Z.of_nat (length head) ≤ INT_MAX)%Z →
  (displayTasks head = ListIsEmpty ↔ head = []) ∧
  (head ≠ [] → displayTasks head = Listed (display_rows head 1)) ∧
  length (display_rows head 1) = length head ∧
  ∀ k, display_rows head 1 !! k
       = (λ t, mkRow (Z.of_nat k + 1)
                 (if decide (completed t = 0%Z) then " "%char else "X"%char)
                 (c_str (description t)))
         <$> task_at head (Z.of_nat k + 1).
Proof.
  intros Hlen. split_and!.
  - by destruct head.
  - by destruct head.
  - apply display_rows_length.
  - intros k. rewrite display_rows_lookup, task_at_lookup by (done || lia).
    by replace (Z.to_nat (Z.of_nat k + 1 - 1)) with k by lia.
Qed.

Lemma displayTasks_numbering_witness :
  displayTasks [mkTask (str "a") 0; mkTask (str "b") 1]
  = Listed [mkRow 1 " "%char (str "a"); mkRow 2 "X"%char (str "b")].
Proof.
  apply (displayTasks_numbering [mkTask (str "a") 0; mkTask (str "b") 1]).
  - unfold INT_MAX. simpl. lia.
  - discriminate.
Defined.

(** X11: after [markComplete] with a valid index the listing is the one
    before, with the mark X on the line of that number. *)
Theorem displayTasks_markComplete head index :
  (Z.of_nat (length head) ≤ INT_MAX)%Z →
  (1 ≤ index ≤ Z.of_nat (length head))%Z →
  display_rows (markComplete head index).2 1
  = alter (λ r, mkRow (row_index r) "X"%char (row_text r))
      (Z.to_nat (index - 1)) (display_rows head 1).
Proof.
  intros Hlen [H1 Hi]. rewrite markComplete_spec by int_lia.
  destruct (lookup_lt_is_Some_2 head (Z.to_nat (index - 1))) as [t Ht]; [lia|].
  rewrite Ht. simpl. apply list_eq. intros k.
  rewrite display_rows_lookup by (by rewrite length_alter).
  destruct (decide (k = Z.to_nat (index - 1))) as [->|Hne].
  - rewrite !list_lookup_alter_eq, display_rows_lookup, Ht by done. done.
  - rewrite !list_lookup_alter_ne, display_rows_lookup by done. done.
Qed.

Lemma displayTasks_markComplete_witness :
  display_rows (markComplete [mkTask (str "a") 0; mkTask (str "b") 0] 2).2 1
  = [mkRow 1 " "%char (str "a"); mkRow 2 "X"%char (str "b")].
Proof.
  apply (displayTasks_markComplete [mkTask (str "a") 0; mkTask (str "b") 0] 2).
  - unfold INT_MAX. simpl. lia.
  - simpl. lia.
Defined.

(** X12: after [addTask] the listing is the one before, followed by a
    line for the new task with the next number and without the mark. *)
Theorem displayTasks_addTask head d :
  (Z.of_nat (length head) < INT_MAX)%Z →
  display_rows (addTask head d) 1
  = display_rows head 1
    ++ [mkRow (Z.of_nat (length head) + 1) " "%char (take 255 (c_str d))].
Proof.
  intros Hlen. apply list_eq. intros k.
  rewrite display_rows_lookup
    by (rewrite addTask_app, length_app; simpl; lia).
  rewrite addTask_app.
  destruct (decide (k < length head)%nat) as [Hlt|Hge].
  - rewrite !lookup_app_l by (by rewrite ?display_rows_length).
    by rewrite display_rows_lookup by lia.
  - rewrite !lookup_app_r by (rewrite ?display_rows_length; lia).
    rewrite display_rows_length.
    destruct (k - length head)%nat as [|j] eqn:Hk; simpl; [|done].
    replace k with (length head) by lia.
    unfold mark_of. simpl. rewrite c_str_id by apply strncpy_nul. done.
Qed.

Lemma displayTasks_addTask_witness :
  display_rows (addTask [mkTask (str "a") 1] (str "b")) 1
  = [mkRow 1 "X"%char (str "a"); mkRow 2 " "%char (str "b")].
Proof.
  apply (displayTasks_addTask [mkTask (str "a") 1] (str "b")).
  unfold INT_MAX. simpl. lia.
Defined.

(** X13: after [deleteTask] with a valid index the lines above that
    number are as before and every later task is listed with its number
    lowered by one. *)
Theorem displayTasks_deleteTask head index :
  (Z.of_nat (length head) ≤ INT_MAX)%Z →
  (1 ≤ index ≤ Z.of_nat (length head))%Z →
  ∀ k, display_rows (deleteTask head index).2 1 !! k
       = if decide (Z.of_nat k + 1 < index)%Z then display_rows head 1 !! k
         else (λ r, mkRow (row_index r - 1) (row_mark r) (row_text r))
                <$> display_rows head 1 !! S k.
Proof.
  intros Hlen [H1 Hi] k. rewrite deleteTask_spec by int_lia.
  destruct (lookup_lt_is_Some_2 head (Z.to_nat (index - 1))) as [t Ht]; [lia|].
  rewrite Ht. simpl.
  assert (length (delete (Z.to_nat (index - 1)) head) ≤ length head)%nat.
  { rewrite length_delete by eauto. lia. }
  rewrite !display_rows_lookup by lia.
  case_decide.
  - by rewrite list_lookup_delete_lt by lia.
  - rewrite list_lookup_delete_ge by lia.
    destruct (head !! S k); simpl; [|done].
    do 2 f_equal. lia.
Qed.

Lemma displayTasks_deleteTask_witness :
  display_rows (deleteTask [mkTask (str "a") 0; mkTask (str "b") 1] 1).2 1
    !! 0%nat
  = Some (mkRow 1 "X"%char (str "b")).
Proof.
  refine (displayTasks_deleteTask [mkTask (str "a") 0; mkTask (str "b") 1] 1
            _ _ 0%nat).
  - unfold INT_MAX. simpl. lia.
  - simpl. lia.
Defined.

(** ** Saving and loading: tasks with an empty description *)

Lemma line_task_one_line line t : line_task line = Some t → one_line t.
Proof.
  intros Ht. apply line_task_iff in Ht as (c & d & Hwf & _ & _ & ->).
  by apply wellformed_line_one_line in Hwf.
Qed.

(** The saved line of any task built by the program is read whole; it
    gives the task back unless the description is empty. *)
Lemma saved_line_any t :
  stored_ok t → newline ∉ description t →
  line_fits (saved_line t) ∧
  line_defined (with_newline (saved_line t)) ∧
  line_task (with_newline (saved_line t))
  = if decide (description t = []) then None else Some t.
Proof.
  intros Hst Hnl. case_decide as Hd.
  - destruct t as [d c]. simpl in Hd. subst d.
    destruct Hst as ([Hc|Hc] & _ & _); simpl in Hc; subst c.
    + split_and!; [split; [by_compute|simpl; unfold MAX_TASK_LEN; lia]| |done].
      vm_compute. discriminate.
    + split_and!; [split; [by_compute|simpl; unfold MAX_TASK_LEN; lia]| |done].
      vm_compute. discriminate.
  - destruct (saved_line_task t Hst (conj Hd Hnl)) as [Hfit Hl].
    split_and!; [done|by eapply line_task_defined|done].
Qed.

Lemma omap_saved_lines_any head :
  Forall stored_ok head → Forall (λ t, newline ∉ description t) head →
  Forall line_fits (saved_line <$> head) ∧
  Forall line_defined (with_newline <$> (saved_line <$> head)) ∧
  omap line_task (with_newline <$> (saved_line <$> head))
  = filter (λ t, description t ≠ []) head.
Proof.
  intros Hst. induction Hst as [|t head Ht _ IH]; intros Hnl.
  { split_and!; by constructor. }
  apply Forall_cons in Hnl as [Ht1 Hnl].
  destruct (IH Hnl) as (Hfit & Hdef & Heq).
  destruct (saved_line_any t Ht Ht1) as (Hf & Hd & Hl).
  rewrite !fmap_cons. cbn [omap list_omap]. rewrite Hl, Heq.
  split_and!; [by constructor|by constructor|].
  case_decide as He.
  - by rewrite filter_cons_False by (by intros ?).
  - by rewrite filter_cons_True by done.
Qed.

Lemma write_tasks_load_any head :
  Forall stored_ok head → Forall (λ t, newline ∉ description t) head →
  loadTasks [] (Some (write_tasks head))
  = Done (filter (λ t, description t ≠ []) head).
Proof.
  intros Hst Hnl.
  destruct (omap_saved_lines_any head Hst Hnl) as (Hfit & Hdef & Heq).
  rewrite write_tasks_unlines, loadTasks_lines by done. by rewrite Heq.
Qed.

(** X14: saving a list built by the operations from descriptions without
    newlines, and loading the file into an empty list, gives back, in
    their order, exactly the tasks whose description is not empty. *)
Theorem save_load_drops_empty ops file :
  Forall (λ t, newline ∉ description t) (run ops) →
  loadTasks [] (saveTasks true (run ops) file)
  = Done (filter (λ t, description t ≠ []) (run ops)).
Proof.
  intros Hnl. simpl. apply write_tasks_load_any; [apply run_stored_ok|done].
Qed.

Lemma save_load_drops_empty_witness :
  loadTasks []
    (saveTasks true (run [Add (str "Buy milk"); Add (str ""); Mark 2;
                          Add (str "Pay rent")]) None)
  = Done [mkTask (str "Buy milk") 0; mkTask (str "Pay rent") 0].
Proof.
  apply (save_load_drops_empty
           [Add (str "Buy milk"); Add (str ""); Mark 2; Add (str "Pay rent")]
           None).
  change (Forall (λ t, newline ∉ description t)
            [mkTask (str "Buy milk") 0; mkTask [] 1; mkTask (str "Pay rent") 0]).
  repeat (apply Forall_cons; split; [by_compute|]).
  apply Forall_nil_2.
Defined.

(** X15: every task that [loadTasks] appends has the flag 0 or 1 and a
    description that is not empty, has no newline and no NUL, and is at
    most 255 characters long. *)
Theorem loadTasks_appended_ok head file head' :
  loadTasks head file = Done head' →
  ∃ added, head' = head ++ added ∧
           Forall (λ t, stored_ok t ∧ one_line t) added.
Proof.
  rewrite loadTasks_app.
  destruct (loadTasks [] file) as [added|] eqn:Hl; [|done].
  intros [= <-]. exists added. split; [done|].
  eapply (loadTasks_Forall (λ t, stored_ok t ∧ one_line t)); [|constructor|done].
  intros line t Ht. split; [by eapply line_task_stored_ok|].
  by eapply line_task_one_line.
Qed.

Lemma loadTasks_appended_ok_witness :
  ∃ added,
    [mkTask (str "a") 0; mkTask (str "x") 1] = [mkTask (str "a") 0] ++ added ∧
    Forall (λ t, stored_ok t ∧ one_line t) added.
Proof.
  apply (loadTasks_appended_ok [mkTask (str "a") 0] (Some (str "7,x"))).
  reflexivity.
Defined.

(** X16: a list that was loaded from a file, whatever the file holds,
    is given back unchanged by a save followed by a load. *)
Theorem loaded_list_roundtrip content file head :
  loadTasks [] (Some content) = Done head →
  loadTasks [] (saveTasks true head file) = Done head.
Proof.
  intros Hl. simpl. apply write_tasks_load.
  - eapply (loadTasks_Forall stored_ok); [|constructor|done].
    intros line t. apply line_task_stored_ok.
  - eapply (loadTasks_Forall one_line); [|constructor|done].
    intros line t. apply line_task_one_line.
Qed.

Lemma loaded_list_roundtrip_witness :
  loadTasks []
    (saveTasks true [mkTask (str "x y") 1; mkTask (str "abc") 0] None)
  = Done [mkTask (str "x y") 1; mkTask (str "abc") 0].
Proof.
  apply (loaded_list_roundtrip
           (str " -12,x y" ++ newline :: str "junk" ++ newline :: str "+0,abc")
           None).
  reflexivity.
Defined.

(** ** Integers as [%d] prints and reads them *)

Lemma uint_chars_digits u :
  Forall (λ c, isdigit c = true) (str (NilEmpty.string_of_uint u)).
Proof. induction u; simpl; constructor; done. Qed.

Lemma uint_chars_length u :
  length (str (NilEmpty.string_of_uint u)) = Decimal.nb_digits u.
Proof. induction u; simpl; congruence. Qed.

Lemma uint_chars_value u acc :
  foldl (λ acc c, 10 * acc + digit_value c)%Z acc
    (str (NilEmpty.string_of_uint u))
  = (acc * 10 ^ Z.of_N (DecimalPos.Unsigned.usize u)
     + Z.of_N (DecimalPos.Unsigned.of_lu (Decimal.rev u)))%Z.
Proof.
  revert acc.
  induction u as [|u IH|u IH|u IH|u IH|u IH|u IH|u IH|u IH|u IH|u IH];
    intros acc;
    [simpl; lia|
     unfold Decimal.rev; simpl Decimal.revapp;
     rewrite DecimalPos.Unsigned.of_lu_revapp;
     simpl DecimalPos.Unsigned.usize; simpl DecimalPos.Unsigned.of_lu;
     rewrite N2Z.inj_add, N2Z.inj_mul, N2Z.inj_pow, N2Z.inj_succ;
     rewrite Z.pow_succ_r by lia;
     change (str (NilEmpty.string_of_uint ?d)) with
       (list_ascii_of_string (NilEmpty.string_of_uint d));
     cbn [NilEmpty.string_of_uint list_ascii_of_string foldl];
     fold (str (NilEmpty.string_of_uint u)); rewrite IH;
     match goal with
     | |- context [digit_value ?c] =>
         let v := eval vm_compute in (digit_value c) in
         change (digit_value c) with v
     end; lia ..].
Qed.

Lemma positive_chars_value p :
  decimal_value (str (NilEmpty.string_of_uint (Pos.to_uint p))) = Zpos p.
Proof.
  unfold decimal_value. rewrite uint_chars_value.
  rewrite <- DecimalPos.Unsigned.of_uint_alt, DecimalPos.Unsigned.of_to.
  simpl. lia.
Qed.

Lemma double_digits d :
  (Decimal.nb_digits (Decimal.Little.double d) ≤ S (Decimal.nb_digits d))%nat ∧
  (Decimal.nb_digits (Decimal.Little.succ_double d) ≤ S (Decimal.nb_digits d))%nat.
Proof. induction d; simpl; lia. Qed.

Lemma to_little_uint_digits p :
  (Decimal.nb_digits (Pos.to_little_uint p) ≤ Pos.size_nat p)%nat.
Proof.
  induction p as [p IH|p IH|]; simpl; [| |lia].
  - destruct (double_digits (Pos.to_little_uint p)). lia.
  - destruct (double_digits (Pos.to_little_uint p)). lia.
Qed.

Lemma size_nat_bound p n :
  (Zpos p < 2 ^ Z.of_nat n)%Z → (Pos.size_nat p ≤ n)%nat.
Proof.
  revert n. induction p as [p IH|p IH|]; intros [|n] Hp; simpl;
    try (simpl in Hp; lia).
  - rewrite Nat2Z.inj_succ, Z.pow_succ_r in Hp by lia.
    specialize (IH n). lia.
  - rewrite Nat2Z.inj_succ, Z.pow_succ_r in Hp by lia.
    specialize (IH n). lia.
Qed.

(** What [%d] prints for an [int]: an optional minus sign and between
    one and 32 digits whose decimal value is the absolute value. *)
Lemma print_int_spec z :
  is_int z →
  ∃ digits,
    print_int z = (if decide (z < 0)%Z then ["-"%char] else []) ++ digits ∧
    digits ≠ [] ∧ Forall (λ c, isdigit c = true) digits ∧
    decimal_value digits = Z.abs z ∧ (length digits ≤ 32)%nat.
Proof.
  intros Hz.
  assert (∀ p, (Zpos p < 2 ^ Z.of_nat 32)%Z →
            let ds := str (NilEmpty.string_of_uint (Pos.to_uint p)) in
            str (NilZero.string_of_uint (Pos.to_uint p)) = ds ∧
            ds ≠ [] ∧ Forall (λ c, isdigit c = true) ds ∧
            decimal_value ds = Zpos p ∧ (length ds ≤ 32)%nat) as Hpos.
  { intros p Hp ds. split_and!.
    - unfold NilZero.string_of_uint. destruct (Pos.to_uint p) eqn:Hu; try done.
      by apply DecimalPos.Unsigned.to_uint_nonnil in Hu.
    - unfold ds. destruct (Pos.to_uint p) eqn:Hu; try done.
      by apply DecimalPos.Unsigned.to_uint_nonnil in Hu.
    - apply uint_chars_digits.
    - apply positive_chars_value.
    - unfold ds. rewrite uint_chars_length. unfold Pos.to_uint.
      rewrite DecimalFacts.nb_digits_rev.
      etrans; [apply to_little_uint_digits|by apply size_nat_bound]. }
  unfold print_int. destruct z as [|p|p]; simpl.
  - exists ["0"%char].
    split_and!; [done|done|by apply Forall_singleton|done|simpl; lia].
  - destruct (Hpos p) as (-> & ? & ? & ? & ?); [simpl; int_lia|].
    exists (str (NilEmpty.string_of_uint (Pos.to_uint p))).
    split_and!; done.
  - destruct (Hpos p) as (Hs & ? & ? & ? & ?); [simpl; int_lia|].
    exists (str (NilEmpty.string_of_uint (Pos.to_uint p))).
    split_and!; [|done..].
    unfold str in *. simpl. by rewrite Hs.
Qed.

Lemma isdigit_not_control c :
  isdigit c = true → (c ≠ NUL) ∧ (c ≠ newline).
Proof.
  destruct c as [[] [] [] [] [] [] [] []]; vm_compute; intros H;
    (discriminate H || (split; congruence)).
Qed.

Lemma digits_not_control digits :
  Forall (λ c, isdigit c = true) digits → (NUL ∉ digits) ∧ (newline ∉ digits).
Proof.
  induction 1 as [|c digits Hc _ [IH1 IH2]].
  { split; apply not_elem_of_nil. }
  destruct (isdigit_not_control c Hc).
  split; apply not_elem_of_cons; done.
Qed.

(** The printed form of an [int] is a short line without NUL. *)
Lemma print_int_line z :
  is_int z →
  (NUL ∉ print_int z) ∧ (newline ∉ print_int z) ∧
  (length (print_int z) ≤ 33)%nat.
Proof.
  intros Hz. destruct (print_int_spec z Hz) as (ds & -> & _ & Hd & _ & Hlen).
  destruct (digits_not_control ds Hd) as [Hnul Hnl].
  case_decide; simpl.
  - split_and!; [apply not_elem_of_cons; by split..|lia].
  - split_and!; [done..|lia].
Qed.

(** [%d] reads back the [int] that [%d] printed. *)
Lemma sscanf_int_print z rest :
  is_int z →
  match rest with c :: _ => isdigit c = false | [] => True end →
  sscanf_int (print_int z ++ rest) = Done (Some z).
Proof.
  intros Hz Hrest.
  destruct (print_int_spec z Hz) as (ds & -> & Hne & Hd & Hv & _).
  destruct ds as [|dc ds]; [done|].
  pose proof Hd as [Hdc _]%Forall_cons.
  destruct (isdigit_not_special dc Hdc) as (Hnsp & _).
  unfold sscanf_int.
  assert (scan_sign (skip_space
            (((if decide (z < 0)%Z then ["-"%char] else []) ++ dc :: ds) ++ rest))
          = (bool_decide (z < 0)%Z, (dc :: ds) ++ rest)) as ->.
  { case_decide.
    - rewrite bool_decide_eq_true_2 by done. done.
    - rewrite bool_decide_eq_false_2 by done.
      cbn [app skip_space]. rewrite Hnsp. by rewrite scan_sign_digit. }
  cbn [app]. rewrite Hdc.
  change (dc :: ds ++ rest) with ((dc :: ds) ++ rest).
  rewrite scan_digits_app by done.
  fold (decimal_value (dc :: ds)). rewrite Hv.
  replace (if bool_decide (z < 0)%Z then (- Z.abs z)%Z else Z.abs z) with z
    by (case_bool_decide; lia).
  by rewrite (proj2 (in_int_range_spec z) Hz).
Qed.

Lemma fgets_line size l stream :
  newline ∉ l → (length l + 1 < size)%nat →
  fgets size (l ++ newline :: stream) = Some (l ++ [newline], stream).
Proof.
  intros Hl Hlen. unfold fgets.
  destruct (l ++ newline :: stream) eqn:Heq.
  { by destruct l. }
  rewrite <- Heq, read_line_whole; [done..|lia].
Qed.

(** ** main: the rounds of the menu *)

Lemma menu_choice c stream :
  c ∈ ["1"; "2"; "3"; "4"; "5"]%char →
  fgets MAX_TASK_LEN (c :: newline :: stream) = Some ([c; newline], stream) ∧
  sscanf_int (c_str [c; newline]) = Done (Some (digit_value c)).
Proof.
  intros Hc.
  repeat (apply elem_of_cons in Hc as [->|Hc];
          [split; [|done];
           match goal with
           | |- fgets _ (?c :: _ :: ?s) = _ =>
               change (c :: newline :: s) with ([c] ++ newline :: s)
           end;
           rewrite fgets_line;
           [done|by_compute|simpl; unfold MAX_TASK_LEN; lia]|]).
  by apply elem_of_nil in Hc.
Qed.

Lemma with_index_print act ask head i rest :
  is_int i →
  with_index act ask head (print_int i ++ newline :: rest)
  = Done (Continue (act head i).2 rest [Menu; ask; Reported i (act head i).1]).
Proof.
  intros Hi. destruct (print_int_line i Hi) as (Hnul & Hnl & Hlen).
  unfold with_index.
  rewrite fgets_line by (done || unfold MAX_TASK_LEN; lia).
  rewrite c_str_id.
  2:{ apply not_elem_of_app. split; [done|].
      apply not_elem_of_cons. split; [done|apply not_elem_of_nil]. }
  rewrite sscanf_int_print by done. by destruct (act head i).
Qed.

(** The lines typed for an operation make one round of the menu apply it. *)
Lemma menu_round_command o can_open file head rest :
  typed_ok o →
  ∃ out, menu_round can_open file head (command o ++ rest)
         = Done (Continue (apply_op head o) rest out).
Proof.
  intros Hok. unfold menu_round. destruct o as [d|i|i]; simpl command;
    cbn [app].
  - destruct Hok as (Hnul & Hnl & Hlen).
    destruct (menu_choice "1"%char ((d ++ [newline]) ++ rest)) as [-> ->];
      [by_compute|].
    change (digit_value "1") with 1%Z. cbn [Z.eqb Pos.eqb].
    rewrite <- app_assoc. cbn [app]. rewrite fgets_line by done.
    assert (cut_newline (d ++ [newline]) = d) as ->.
    { unfold cut_newline. rewrite c_str_id, before_app; [done..|].
      apply not_elem_of_app. split; [done|].
      apply not_elem_of_cons. split; [done|apply not_elem_of_nil]. }
    by eexists.
  - destruct (menu_choice "3"%char ((print_int i ++ [newline]) ++ rest))
      as [-> ->]; [by_compute|].
    change (digit_value "3") with 3%Z. cbn [Z.eqb Pos.eqb].
    rewrite <- app_assoc. cbn [app]. rewrite with_index_print by done.
    by eexists.
  - destruct (menu_choice "4"%char ((print_int i ++ [newline]) ++ rest))
      as [-> ->]; [by_compute|].
    change (digit_value "4") with 4%Z. cbn [Z.eqb Pos.eqb].
    rewrite <- app_assoc. cbn [app]. rewrite with_index_print by done.
    by eexists.
Qed.

Lemma menu_round_quit can_open file head rest :
  menu_round can_open file head ("5"%char :: newline :: rest)
  = Done (Return (saveTasks can_open head file)
            (Menu :: Saving :: if can_open then [] else [CannotSave])).
Proof.
  unfold menu_round.
  destruct (menu_choice "5"%char rest) as [-> ->]; [by_compute|]. done.
Qed.

Lemma main_loop_commands ops can_open file head rest out :
  Forall typed_ok ops →
  ∃ out', main_loop (length ops) can_open file head (commands ops ++ rest) out
          = Done (InLoop (foldl apply_op head ops) rest out').
Proof.
  intros Hok. revert head out.
  induction Hok as [|o ops Ho _ IH]; intros head out; simpl.
  { by eexists. }
  unfold commands. rewrite fmap_cons. simpl concat. rewrite <- app_assoc.
  destruct (menu_round_command o can_open file head
              (concat (command <$> ops) ++ rest) Ho) as [out1 ->].
  apply IH.
Qed.

Lemma main_loop_add n m can_open file head stdin out :
  main_loop (n + m) can_open file head stdin out
  = match main_loop n can_open file head stdin out with
    | Done (InLoop head' stdin' out') =>
        main_loop m can_open file head' stdin' out'
    | r => r
    end.
Proof.
  revert head stdin out. induction n as [|n IH]; intros head stdin out;
    simpl; [done|].
  destruct (menu_round can_open file head stdin) as [[head' stdin' out'|]|];
    [apply IH|done..].
Qed.

Lemma main_loop_eof rounds can_open file head out :
  main_loop rounds can_open file head [] out
  = Done (InLoop head [] (out ++ replicate rounds Menu)).
Proof.
  revert out. induction rounds as [|rounds IH]; intros out; simpl.
  { by rewrite app_nil_r. }
  rewrite IH. by rewrite <- app_assoc.
Qed.

(** ** main: the claims on whole runs *)

(** X17: when the user types the lines of a series of operations (add
    with a description, mark and delete with an index) and then 5, the
    program returns after one round for each of them, and the file it
    leaves is the one [saveTasks] writes for the list that these
    operations build from the loaded list; when the file cannot be opened
    for writing it stays as it was. *)
Theorem main_session ops can_open file head0 rest :
  loadTasks [] file = Done head0 → Forall typed_ok ops →
  run_end (main (length ops + 1) can_open file
             (commands ops ++ "5"%char :: newline :: rest))
  = Done (inl (saveTasks can_open (foldl apply_op head0 ops) file)).
Proof.
  intros Hload Hok. unfold main. rewrite Hload, main_loop_add.
  edestruct main_loop_commands as [out' ->]; [done|].
  cbn [main_loop]. by rewrite menu_round_quit.
Qed.

Lemma main_session_witness :
  run_end
    (main 5 true None
       (commands [Add (str "Buy milk"); Add (str "Pay rent"); Mark 2; Delete 1]
        ++ "5"%char :: newline :: []))
  = Done (inl (Some (str "1,Pay rent" ++ [newline]))).
Proof.
  apply (main_session
           [Add (str "Buy milk"); Add (str "Pay rent"); Mark 2; Delete 1]
           true None [] []).
  - reflexivity.
  - repeat (apply Forall_cons; split;
            [first [split_and!; [by_compute|by_compute|
                                 simpl; unfold MAX_TASK_LEN; lia]
                   |unfold typed_ok, is_int, INT_MIN, INT_MAX; lia]|]).
    apply Forall_nil_2.
Defined.

(** X18: when the standard input ends before 5 is chosen the program
    never returns, however many rounds it runs: it keeps the list that
    the typed operations have built and never writes the file. *)
Theorem main_input_ended ops can_open file head0 rounds :
  loadTasks [] file = Done head0 → Forall typed_ok ops →
  (length ops ≤ rounds)%nat →
  run_end (main rounds can_open file (commands ops))
  = Done (inr (foldl apply_op head0 ops, [])).
Proof.
  intros Hload Hok Hrounds. unfold main. rewrite Hload.
  replace rounds with (length ops + (rounds - length ops))%nat by lia.
  rewrite main_loop_add.
  edestruct (main_loop_commands ops can_open file head0 []) as [out' Hout];
    [done|].
  rewrite app_nil_r in Hout. rewrite Hout.
  by rewrite main_loop_eof.
Qed.

Lemma main_input_ended_witness :
  run_end (main 1000 true None (commands [Add (str "Buy milk"); Mark 1]))
  = Done (inr ([mkTask (str "Buy milk") 1], [])).
Proof.
  apply (main_input_ended [Add (str "Buy milk"); Mark 1] true None [] 1000).
  - reflexivity.
  - repeat (apply Forall_cons; split;
            [first [split_and!; [by_compute|by_compute|
                                 simpl; unfold MAX_TASK_LEN; lia]
                   |unfold typed_ok, is_int, INT_MIN, INT_MAX; lia]|]).
    apply Forall_nil_2.
  - simpl. lia.
Defined.

(** ** main: every run is a series of operations *)

Lemma with_index_op act ask head stdin head' stdin' out' :
  with_index act ask head stdin = Done (Continue head' stdin' out') →
  head' = head ∨ ∃ i, head' = (act head i).2.
Proof.
  unfold with_index.
  destruct (fgets _ stdin) as [[buf rest]|]; [|intros [= <- _ _]; by left].
  destruct (sscanf_int _) as [[i|]|]; [| |done].
  - destruct (act head i) as [r h] eqn:Hact. intros [= <- _ _].
    right. exists i. by rewrite Hact.
  - intros [= <- _ _]. by left.
Qed.

Lemma with_index_continues act ask head stdin file' out' :
  with_index act ask head stdin ≠ Done (Return file' out').
Proof.
  unfold with_index.
  destruct (fgets _ stdin) as [[buf rest]|]; [|done].
  destruct (sscanf_int _) as [[i|]|]; [|done..].
  by destruct (act head i).
Qed.

Lemma menu_round_op can_open file head stdin head' stdin' out' :
  menu_round can_open file head stdin = Done (Continue head' stdin' out') →
  head' = head ∨ ∃ o, one_line_op o ∧ head' = apply_op head o.
Proof.
  unfold menu_round.
  destruct (fgets _ stdin) as [[buf stdin1]|]; [|intros [= <- _ _]; by left].
  destruct (sscanf_int _) as [[choice|]|]; [| |done].
  2:{ intros [= <- _ _]. by left. }
  destruct (choice =? 1)%Z.
  { destruct (fgets _ stdin1) as [[line stdin2]|]; intros [= <- _ _];
      [|by left].
    right. exists (Add (cut_newline line)). split; [|done].
    apply cut_newline_notin. }
  destruct (choice =? 2)%Z; [intros [= <- _ _]; by left|].
  destruct (choice =? 3)%Z.
  { intros [->|[i ->]]%with_index_op; [by left|].
    right. by exists (Mark i). }
  destruct (choice =? 4)%Z.
  { intros [->|[i ->]]%with_index_op; [by left|].
    right. by exists (Delete i). }
  destruct (choice =? 5)%Z; [done|]. intros [= <- _ _]. by left.
Qed.

Lemma menu_round_return can_open file head stdin file' out' :
  menu_round can_open file head stdin = Done (Return file' out') →
  file' = saveTasks can_open head file.
Proof.
  unfold menu_round.
  destruct (fgets _ stdin) as [[buf stdin1]|]; [|done].
  destruct (sscanf_int _) as [[choice|]|]; [|done..].
  destruct (choice =? 1)%Z.
  { by destruct (fgets _ stdin1) as [[line stdin2]|]. }
  destruct (choice =? 2)%Z; [done|].
  destruct (choice =? 3)%Z.
  { intros H. by apply with_index_continues in H. }
  destruct (choice =? 4)%Z.
  { intros H. by apply with_index_continues in H. }
  destruct (choice =? 5)%Z; [|done]. by intros [= <- _].
Qed.

Lemma main_loop_ops rounds can_open file head stdin out st :
  main_loop rounds can_open file head stdin out = Done st →
  ∃ ops, Forall one_line_op ops ∧
         match st with
         | Exited file' _ =>
             file' = saveTasks can_open (foldl apply_op head ops) file
         | InLoop head' _ _ => head' = foldl apply_op head ops
         end.
Proof.
  revert head stdin out.
  induction rounds as [|rounds IH]; intros head stdin out; simpl.
  { intros [= <-]. by exists []. }
  destruct (menu_round can_open file head stdin)
    as [[head' stdin' out'|file' out']|] eqn:Hr; [| |done].
  - intros (ops & Hops & Hst)%IH.
    apply menu_round_op in Hr as [->|(o & Ho & ->)].
    + by exists ops.
    + exists (o :: ops). split; [by constructor|done].
  - intros [= <-]. apply menu_round_return in Hr as ->. by exists [].
Qed.

Lemma foldl_apply_op_stored_ok head ops :
  Forall stored_ok head → Forall stored_ok (foldl apply_op head ops).
Proof.
  revert head. induction ops as [|o ops IH]; intros head Hall; simpl; [done|].
  by apply IH, apply_op_stored_ok.
Qed.

Lemma foldl_apply_op_description_ok head ops :
  Forall one_line_op ops → Forall description_ok head →
  Forall description_ok (foldl apply_op head ops).
Proof.
  intros Hops. revert head.
  induction Hops as [|o ops Ho _ IH]; intros head Hall; simpl; [done|].
  apply IH. destruct o as [d|i|i]; simpl.
  - apply addTask_Forall; [by apply createTask_description_ok|done].
  - by apply markComplete_Forall.
  - by apply deleteTask_Forall.
Qed.

(** X19: however the user's input reads, the list that [main] holds, and
    the list it saves on returning, is the loaded list changed by a
    series of [addTask], [markComplete] and [deleteTask] calls, the
    added descriptions being free of newlines; nothing else changes the
    list, and the file is written by choice 5 only. *)
Theorem main_refines rounds can_open file stdin st :
  main rounds can_open file stdin = Done st →
  ∃ head0 ops,
    loadTasks [] file = Done head0 ∧ Forall one_line_op ops ∧
    match st with
    | Exited file' _ =>
        file' = saveTasks can_open (foldl apply_op head0 ops) file
    | InLoop head _ _ => head = foldl apply_op head0 ops
    end.
Proof.
  unfold main. destruct (loadTasks [] file) as [head0|] eqn:Hl; [|done].
  intros (ops & Hops & Hst)%main_loop_ops. by exists head0, ops.
Qed.

Lemma main_refines_witness :
  ∃ head0 ops,
    loadTasks [] None = Done head0 ∧ Forall one_line_op ops ∧
    Some (str "0,a" ++ [newline]) = saveTasks true (foldl apply_op head0 ops) None.
Proof.
  apply (main_refines 2 true None
           ("1"%char :: newline :: "a"%char :: newline :: "5"%char :: [newline])
           (Exited (Some (str "0,a" ++ [newline]))
              [Welcome; NoTaskFile; Menu; AskDescription; TaskAdded; Menu;
               Saving])).
  reflexivity.
Defined.

(** X20: whatever the user types, the file that the program leaves when
    it returns after a successful save holds tasks with descriptions of
    at most 255 characters without newline; the next start loads it
    with defined behaviour and gets, in their order, the tasks whose
    description is not empty. *)
Theorem main_saves_loadable rounds file stdin file' out :
  main rounds true file stdin = Done (Exited file' out) →
  ∃ head, file' = Some (write_tasks head) ∧
          Forall stored_ok head ∧ Forall description_ok head ∧
          loadTasks [] file' = Done (filter (λ t, description t ≠ []) head).
Proof.
  unfold main. destruct (loadTasks [] file) as [head0|] eqn:Hl; [|done].
  intros (ops & Hops & ->)%main_loop_ops.
  assert (Forall stored_ok head0) as Hst0.
  { eapply (loadTasks_Forall stored_ok); [|constructor|done].
    intros line t. apply line_task_stored_ok. }
  assert (Forall description_ok head0) as Hd0.
  { eapply (loadTasks_Forall description_ok); [|constructor|done].
    intros line t. apply line_task_description_ok. }
  pose proof (foldl_apply_op_stored_ok head0 ops Hst0) as Hst.
  pose proof (foldl_apply_op_description_ok head0 ops Hops Hd0) as Hd.
  exists (foldl apply_op head0 ops). split_and!; [done..|].
  apply write_tasks_load_any; [done|].
  eapply Forall_impl; [done|]. by intros t [_ ?].
Qed.

Lemma main_saves_loadable_witness :
  ∃ head, Some (str "0,a" ++ [newline]) = Some (write_tasks head) ∧
          Forall stored_ok head ∧ Forall description_ok head ∧
          loadTasks [] (Some (str "0,a" ++ [newline]))
          = Done (filter (λ t, description t ≠ []) head).
Proof.
  apply (main_saves_loadable 2 None
           ("1"%char :: newline :: "a"%char :: newline :: "5"%char :: [newline])
           (Some (str "0,a" ++ [newline]))
           [Welcome; NoTaskFile; Menu; AskDescription; TaskAdded; Menu;
            Saving]).
  reflexivity.
Defined.

(** ** Lines longer than the input buffer *)

Lemma read_line_long room l stream :
  newline ∉ l → (room ≤ length l)%nat →
  read_line room (l ++ stream) = (take room l, drop room l ++ stream).
Proof.
  revert l. induction room as [|room IH]; intros l Hl Hlen.
  { rewrite take_0, drop_0. by destruct (l ++ stream). }
  destruct l as [|c l]; [simpl in Hlen; lia|].
  apply not_elem_of_cons in Hl as [Hc Hl]. simpl.
  case_decide; [done|]. rewrite IH by (done || simpl in Hlen; lia). done.
Qed.

(** X21: a description typed on a line of 255 characters or more is cut
    to its first 255 characters, and the rest of that line stays in the
    input, where the next round reads it as the choice of the menu. *)
Theorem menu_round_long_description can_open file head l rest :
  NUL ∉ l → newline ∉ l → (255 ≤ length l)%nat →
  menu_round can_open file head ("1"%char :: newline :: l ++ newline :: rest)
  = Done (Continue (head ++ [mkTask (take 255 l) 0])
            (drop 255 l ++ newline :: rest)
            [Menu; AskDescription; TaskAdded]).
Proof.
  intros Hnul Hnl Hlen. unfold menu_round.
  destruct (menu_choice "1"%char (l ++ newline :: rest)) as [-> ->];
    [by_compute|].
  change (digit_value "1") with 1%Z. cbn [Z.eqb Pos.eqb].
  assert (fgets MAX_TASK_LEN (l ++ newline :: rest)
          = Some (take 255 l, drop 255 l ++ newline :: rest)) as ->.
  { unfold fgets. destruct (l ++ newline :: rest) eqn:Heq.
    { by destruct l. }
    rewrite <- Heq. unfold MAX_TASK_LEN.
    by rewrite (read_line_long (256 - 1)) by done. }
  rewrite addTask_app. do 3 f_equal.
  assert (NUL ∉ take 255 l) as Hnul'.
  { intros H. by apply subseteq_take in H. }
  assert (newline ∉ take 255 l) as Hnl'.
  { intros H. by apply subseteq_take in H. }
  unfold createTask, cut_newline.
  rewrite (c_str_id (take 255 l)), (before_id _ (take 255 l)) by done.
  rewrite strncpy_id; [done|done|]. unfold MAX_TASK_LEN.
  rewrite length_take. lia.
Qed.

Lemma menu_round_long_description_witness :
  menu_round true None []
    ("1"%char :: newline :: replicate 255 "a"%char ++ str "5" ++ newline :: [])
  = Done (Continue [mkTask (replicate 255 "a"%char) 0]
            (str "5" ++ [newline])
            [Menu; AskDescription; TaskAdded]).
Proof.
  apply (menu_round_long_description true None []
           (replicate 255 "a"%char ++ str "5") []).
  - by_compute.
  - by_compute.
  - vm_compute. lia.
Defined.

(** ** clearInputBuffer *)

(** X22: [clearInputBuffer] discards the input up to and with the first
    newline and leaves what follows it; when the input has no newline it
    discards all of it. *)
Theorem clearInputBuffer_line l rest :
  newline ∉ l →
  clearInputBuffer (l ++ newline :: rest) = rest ∧ clearInputBuffer l = [].
Proof.
  induction l as [|c l IH]; intros Hl; simpl.
  { try case_decide; done. }
  apply not_elem_of_cons in Hl as [Hc Hl].
  case_decide; [done|]. by apply IH.
Qed.

Lemma clearInputBuffer_line_witness :
  clearInputBuffer (str "abc" ++ newline :: str "1") = str "1" ∧
  clearInputBuffer (str "abc") = [].
Proof.
  apply (clearInputBuffer_line (str "abc") (str "1")). by_compute.
Defined.

(** ** loadTasks: lines longer than the line buffer *)

(** X23: [loadTasks] reads a line longer than its buffer in pieces of
    265 characters and treats every piece as a line of its own: after
    265 characters on which [sscanf] assigns nothing, what follows on
    the same line of the file is loaded as if it began a line. *)
Theorem loadTasks_long_line head junk l :
  length junk = 265%nat → newline ∉ junk →
  sscanf_task MAX_TASK_LEN (c_str junk) = Done NoMatch →
  line_fits l → line_defined (with_newline l) →
  loadTasks head (Some (junk ++ l ++ [newline]))
  = Done (head ++ option_list (line_task (with_newline l))).
Proof.
  intros Hlen Hnl Hjunk Hfit Hdef. unfold loadTasks.
  rewrite load_loop_unfold by done.
  assert (fgets (MAX_TASK_LEN + 10) (junk ++ l ++ [newline])
          = Some (junk, l ++ [newline])) as ->.
  { unfold fgets. destruct (junk ++ l ++ [newline]) eqn:Heq.
    { by destruct junk. }
    rewrite <- Heq. unfold MAX_TASK_LEN.
    rewrite (read_line_long (256 + 10 - 1)) by (done || simpl; lia).
    rewrite take_ge, drop_ge by (simpl; lia). done. }
  rewrite load_line_spec, Hjunk. unfold line_task at 1. rewrite Hjunk.
  simpl option_list. rewrite app_nil_r.
  pose proof (loadTasks_lines head [l]) as Hl. unfold loadTasks in Hl.
  unfold unlines, with_newline in Hl. simpl in Hl. rewrite app_nil_r in Hl.
  rewrite Hl; [|by constructor|by constructor].
  unfold with_newline. by destruct (line_task (l ++ [newline])).
Qed.

Lemma loadTasks_long_line_witness :
  loadTasks [] (Some (replicate 265 "x"%char ++ str "1,Pay rent" ++ [newline]))
  = Done [mkTask (str "Pay rent") 1].
Proof.
  apply (loadTasks_long_line [] (replicate 265 "x"%char) (str "1,Pay rent")).
  - reflexivity.
  - by_compute.
  - reflexivity.
  - split; [by_compute|simpl; unfold MAX_TASK_LEN; lia].
  - vm_compute. discriminate.
Defined.
